(** * Kernighan-Lin bisection (kl.py): a shallow embedding and its properties

    The development follows [src/kl.py]: the classes [Vertex], [Edge] and
    [Graph], and the method [KernighanLin.partition].

    Python objects are shared and mutated in place.  The store is modelled
    by position: a reference to a [Vertex] object is its index in
    [Graph.vertices], and the identity of an [Edge] object is its index in
    [Graph.edges] (field [eid]).  Python integers are unbounded, hence [Z].
    Exceptions are values of [exn], threaded by the [result] monad.  The
    calls to [print] at the end of [partition] and the file handling of
    [read_netlist] and [write_output] are left out. *)

From stdpp Require Import gmap strings list fin_maps pretty.

Local Open Scope Z_scope.
#[local] Set Warnings "-clear-no-such-hyp".

(** ** Exceptions *)

Inductive exn : Type :=
  | KeyError (key : Z)   (* dict[key] on a missing key *)
  | IndexError           (* list[i] out of range *)
  | ValueError.          (* list.remove(x) with x absent *)

Inductive result (T : Type) : Type :=
  | Ok (x : T)
  | Raise (e : exn).
Arguments Ok {T} x.
Arguments Raise {T} e.

#[global] Instance result_ret : MRet result := fun T x => Ok x.
#[global] Instance result_bind : MBind result := fun T U f m =>
  match m with
  | Ok x => f x
  | Raise e => Raise e
  end.

#[global] Instance exn_eq_dec : EqDecision exn.
Proof. solve_decision. Defined.

(** ** Data model *)

(** [partition_label] is [None], "A" or "B". *)
Inductive Label : Type := LabelA | LabelB.

#[global] Instance Label_eq_dec : EqDecision Label.
Proof. solve_decision. Defined.

(** An [Edge] object once [Graph.__init__] has linked it: [left_v] and
    [right_v] are references to [Vertex] objects. *)
Record Edge : Type := mkEdge {
  eid : nat;
  left_id : Z;
  right_id : Z;
  left_v : nat;
  right_v : nat
}.

Record Vertex : Type := mkVertex {
  id : Z;
  edges : list Edge;
  partition_label : option Label
}.

Record Graph : Type := mkGraph {
  vertices : list Vertex;
  graph_edges : list Edge
}.

(** [Vertex.__init__] *)
Definition Vertex_init (i : Z) : Vertex :=
  {| id := i; edges := []; partition_label := None |}.

Definition set_label (l : Label) (v : Vertex) : Vertex :=
  {| id := id v; edges := edges v; partition_label := Some l |}.

(** [ref.partition_label], read through the store. *)
Definition label_at (vs : list Vertex) (ref : nat) : option Label :=
  vs !! ref ≫= partition_label.

(** ** Vertex *)

(** [Vertex.add_edge]: the edge is appended unless an incident edge has the
    reversed endpoint ids. *)
Definition add_edge (self : Vertex) (edge : Edge) : Vertex :=
  if existsb (fun e => bool_decide (left_id e = right_id edge)
                       && bool_decide (right_id e = left_id edge)) (edges self)
  then self
  else {| id := id self; edges := edges self ++ [edge];
          partition_label := partition_label self |}.

(** [Vertex.get_D_value] *)
Definition get_D_value (vs : list Vertex) (self : Vertex) : Z :=
  foldl (fun D_value edge =>
           let other_v := if bool_decide (right_id edge = id self)
                          then left_v edge else right_v edge in
           D_value + (if bool_decide (label_at vs other_v ≠ partition_label self)
                      then 1 else -1))
        0 (edges self).

(** ** Graph *)

(** [{v.id: v for v in self.vertices}]: a later vertex with the same id
    overwrites an earlier one. *)
Fixpoint build_vertex_dict (vs : list Vertex) (i : nat) (d : gmap Z nat)
  : gmap Z nat :=
  match vs with
  | [] => d
  | v :: vs' => build_vertex_dict vs' (S i) (<[id v := i]> d)
  end.

Definition dict_get {V : Type} (d : gmap Z V) (k : Z) : result V :=
  match d !! k with
  | Some x => Ok x
  | None => Raise (KeyError k)
  end.

(** The loop of [Graph.__init__] over the edges [Edge(l, r)], the [k]-th
    of which becomes the [Edge] object of identity [k]. *)
Fixpoint link_edges (vertex_dict : gmap Z nat) (raw : list (Z * Z)) (k : nat)
    (vs : list Vertex) (es : list Edge) : result (list Vertex * list Edge) :=
  match raw with
  | [] => Ok (vs, es)
  | (l, r) :: raw' =>
      lv ← dict_get vertex_dict l;
      rv ← dict_get vertex_dict r;
      let edge := {| eid := k; left_id := l; right_id := r;
                     left_v := lv; right_v := rv |} in
      let vs1 := alter (fun v => add_edge v edge) lv vs in
      let vs2 := alter (fun v => add_edge v edge) rv vs1 in
      link_edges vertex_dict raw' (S k) vs2 (es ++ [edge])
  end.

(** [Graph.__init__(vertices, edges)] *)
Definition Graph_init (vs : list Vertex) (raw : list (Z * Z)) : result Graph :=
  let vertex_dict := build_vertex_dict vs 0 ∅ in
  '(vs', es) ← link_edges vertex_dict raw 0 vs [];
  Ok {| vertices := vs'; graph_edges := es |}.

(** [Graph.get_partition_cost] *)
Definition get_partition_cost (g : Graph) : Z :=
  Z.of_nat (length (filter (fun edge =>
    label_at (vertices g) (left_v edge) ≠ label_at (vertices g) (right_v edge))
    (graph_edges g))).

(** [read_netlist], after each line has been split into its two integers. *)
Fixpoint read_lines (lines : list (Z * Z)) (es : list (Z * Z))
    (vs : list Vertex) (seen_vertex_ids : gset Z) : list Vertex * list (Z * Z) :=
  match lines with
  | [] => (vs, es)
  | (l, r) :: lines' =>
      let es := es ++ [(l, r)] in
      let '(vs, seen) :=
        if bool_decide (l ∉ seen_vertex_ids)
        then (vs ++ [Vertex_init l], {[l]} ∪ seen_vertex_ids)
        else (vs, seen_vertex_ids) in
      let '(vs, seen) :=
        if bool_decide (r ∉ seen)
        then (vs ++ [Vertex_init r], {[r]} ∪ seen)
        else (vs, seen) in
      read_lines lines' es vs seen
  end.

Definition read_netlist (lines : list (Z * Z)) : result Graph :=
  let '(vs, es) := read_lines lines [] [] ∅ in
  Graph_init vs es.

(** ** KernighanLin.partition *)

(** [self.graph.vertices[i].partition_label = l] *)
Definition set_partition_label (vs : list Vertex) (i : nat) (l : Label)
  : result (list Vertex) :=
  match vs !! i with
  | Some v => Ok (<[i := set_label l v]> vs)
  | None => Raise IndexError
  end.

(** [for i in range(half): ...] of the initial bisection, over the
    remaining indices [idxs]. *)
Fixpoint initial_bisection (half : nat) (idxs : list nat) (vs : list Vertex)
  : result (list Vertex) :=
  match idxs with
  | [] => Ok vs
  | i :: idxs' =>
      vs1 ← set_partition_label vs i LabelA;
      vs2 ← set_partition_label vs1 (i + half)%nat LabelB;
      initial_bisection half idxs' vs2
  end.

(** [[v for v in self.graph.vertices if v.partition_label == l]]: each
    element is a reference together with the object read through it. *)
Definition select_group (l : Label) (vs : list Vertex) : list (nat * Vertex) :=
  filter (fun p => partition_label p.2 = Some l) (imap pair vs).

(** [{v.id: v.get_D_value() for v in self.graph.vertices}] *)
Definition compute_D_values (vs : list Vertex) : gmap Z Z :=
  foldl (fun D v => <[id v := get_D_value vs v]> D) ∅ vs.

(** [len(set(a.edges).intersection(b.edges))]; [Edge] objects hash by
    identity. *)
Definition common_edges (a b : Vertex) : Z :=
  Z.of_nat (size ((list_to_set (eid <$> edges a) : gset nat)
                  ∩ list_to_set (eid <$> edges b))).

(** An entry [[[a, b], gain]] of [gains]. *)
Definition candidate : Type := (nat * Vertex) * (nat * Vertex) * Z.

Fixpoint gains_row (D : gmap Z Z) (a : nat * Vertex) (group_b : list (nat * Vertex))
  : result (list candidate) :=
  match group_b with
  | [] => Ok []
  | b :: bs =>
      let c_ab := common_edges a.2 b.2 in
      Da ← dict_get D (id a.2);
      Db ← dict_get D (id b.2);
      rest ← gains_row D a bs;
      Ok ((a, b, Da + Db - 2 * c_ab) :: rest)
  end.

Fixpoint compute_gains (D : gmap Z Z) (group_a group_b : list (nat * Vertex))
  : result (list candidate) :=
  match group_a with
  | [] => Ok []
  | a :: group_a' =>
      row ← gains_row D a group_b;
      rest ← compute_gains D group_a' group_b;
      Ok (row ++ rest)
  end.

(** [sorted(gains, key=lambda x: x[1], reverse=True)]: a stable sort, so
    entries of equal gain keep their order. *)
Fixpoint insert_desc (x : candidate) (l : list candidate) : list candidate :=
  match l with
  | [] => [x]
  | y :: l' => if bool_decide (y.2 ≤ x.2) then x :: l else y :: insert_desc x l'
  end.

Definition sorted_reverse (gains : list candidate) : list candidate :=
  foldr insert_desc [] gains.

(** [group.remove(v)]: the first occurrence of the object. *)
Fixpoint list_remove (ref : nat) (group : list (nat * Vertex))
  : result (list (nat * Vertex)) :=
  match group with
  | [] => Raise ValueError
  | x :: group' =>
      if bool_decide (x.1 = ref) then Ok group'
      else rest ← list_remove ref group'; Ok (x :: rest)
  end.

(** One of the two loops that update [D_values] after a swap:
    [D_values[x.id] += 2 * c(x, first) - 2 * c(x, second)]. *)
Fixpoint update_D_values (first second : Vertex) (group : list (nat * Vertex))
    (D : gmap Z Z) : result (gmap Z Z) :=
  match group with
  | [] => Ok D
  | x :: group' =>
      let c1 := common_edges x.2 first in
      let c2 := common_edges x.2 second in
      d ← dict_get D (id x.2);
      update_D_values first second group' (<[id x.2 := d + (2 * c1 - 2 * c2)]> D)
  end.

(** The local variables of [partition] that live across iterations;
    [iterations] counts the entries into the loop body. *)
Record locals : Type := mkLocals {
  l_vertices : list Vertex;
  D_values : gmap Z Z;
  total_gain : Z;
  iterations : nat
}.

Inductive control : Type := Continue | Break.

(** The body of [for _ in range(half)].  With [incremental = false] the two
    loops that update [D_values] after the swap are left out. *)
Definition outer_iteration (incremental : bool) (st : locals)
  : result (control * locals) :=
  let vs := l_vertices st in
  let group_a := select_group LabelA vs in
  let group_b := select_group LabelB vs in
  let D := compute_D_values vs in
  gains ← compute_gains D group_a group_b;
  match sorted_reverse gains with
  | [] => Raise IndexError
  | (a, b, max_gain) :: _ =>
      if bool_decide (max_gain ≤ 0)
      then Ok (Break, {| l_vertices := vs; D_values := D;
                         total_gain := total_gain st;
                         iterations := S (iterations st) |})
      else
        group_a ← list_remove a.1 group_a;
        group_b ← list_remove b.1 group_b;
        let vs := alter (set_label LabelB) a.1 vs in
        let vs := alter (set_label LabelA) b.1 vs in
        D ← (if incremental
             then D ← update_D_values a.2 b.2 group_a D;
                  update_D_values b.2 a.2 group_b D
             else Ok D);
        Ok (Continue, {| l_vertices := vs; D_values := D;
                         total_gain := total_gain st + max_gain;
                         iterations := S (iterations st) |})
  end.

(** [for _ in range(half)] with [n] iterations left. *)
Fixpoint outer_loop (incremental : bool) (n : nat) (st : locals) : result locals :=
  match n with
  | O => Ok st
  | S n' =>
      '(c, st') ← outer_iteration incremental st;
      match c with
      | Break => Ok st'
      | Continue => outer_loop incremental n' st'
      end
  end.

(** The graph with the labels of [vs]: the vertex objects after mutation. *)
Definition relabel (g : Graph) (vs : list Vertex) : Graph :=
  {| vertices := vs; graph_edges := graph_edges g |}.

(** Lines 170-173: the initial bisection. *)
Definition initial_split (g : Graph) : result (list Vertex) :=
  let half := (length (vertices g) / 2)%nat in
  initial_bisection half (seq 0 half) (vertices g).

(** The locals on entry to the outer loop ([D_values] is not bound yet). *)
Definition initial_locals (vs : list Vertex) : locals :=
  {| l_vertices := vs; D_values := ∅; total_gain := 0; iterations := O |}.

(** The run up to the end of the outer loop: the graph with its final
    labels and the locals. *)
Definition partition_run (incremental : bool) (g : Graph) : result (Graph * locals) :=
  let half := (length (vertices g) / 2)%nat in
  vs ← initial_split g;
  st ← outer_loop incremental half (initial_locals vs);
  Ok (relabel g (l_vertices st), st).

Definition group_ids (l : Label) (g : Graph) : list Z :=
  id <$> filter (fun v => partition_label v = Some l) (vertices g).

(** What [partition] returns: [(cutset, group_a, group_b)]. *)
Definition partition_result (g : Graph) : string * list Z * list Z :=
  (pretty (get_partition_cost g), group_ids LabelA g, group_ids LabelB g).

Definition partition_with (incremental : bool) (g : Graph)
  : result (string * list Z * list Z) :=
  '(g', _) ← partition_run incremental g;
  Ok (partition_result g').

(** [KernighanLin(graph).partition()] *)
Definition partition (g : Graph) : result (string * list Z * list Z) :=
  partition_with true g.

(** [partition] with the loops of lines 206-215 removed. *)
Definition partition_without_update (g : Graph) : result (string * list Z * list Z) :=
  partition_with false g.

(** Vertices as [read_netlist] creates them: [Vertex(id)] for each id. *)
Definition fresh_vertices (ids : list Z) : list Vertex := Vertex_init <$> ids.

(** The cut cost of the graph [g] under the labels held in [st]. *)
Definition cost_in (g : Graph) (st : locals) : Z :=
  get_partition_cost (relabel g (l_vertices st)).

(** ** Vocabulary of the properties *)

(** [type(e).__name__]: the name of the class of an exception. *)
Definition exn_name (e : exn) : string :=
  match e with
  | KeyError _ => "KeyError"
  | IndexError => "IndexError"
  | ValueError => "ValueError"
  end.

(** [other_v] of [get_D_value]: the end of [edge] that the test on
    [right_id] selects for the vertex [self]. *)
Definition other_end (self : Vertex) (edge : Edge) : nat :=
  if bool_decide (right_id edge = id self) then left_v edge else right_v edge.

(** The graph without the edges whose two ends are the same vertex. *)
Definition without_loops (g : Graph) : Graph :=
  {| vertices := vertices g;
     graph_edges := filter (fun e => left_v e ≠ right_v e) (graph_edges g) |}.

(** The labelling that lines 170-173 produce, position by position. *)
Definition bisected (s k half : nat) (j : nat) (v : Vertex) : Vertex :=
  if decide (s ≤ j < s + k)%nat then set_label LabelA v
  else if decide (s + half ≤ j < s + k + half)%nat then set_label LabelB v
  else v.

(** Every vertex read through a group has its id among the keys of [D]. *)
Definition covers (D : gmap Z Z) (group : list (nat * Vertex)) : Prop :=
  ∀ x, x ∈ group → is_Some (D !! id x.2).

(** [gain] as line 190 computes it, on a table that has both keys. *)
Definition gain (D : gmap Z Z) (a b : Vertex) : Z :=
  (D !!! id a) + (D !!! id b) - 2 * common_edges a b.

(** The candidates in generation order: outer loop over [group_a], inner
    loop over [group_b]. *)
Definition candidates (D : gmap Z Z) (group_a group_b : list (nat * Vertex))
  : list candidate :=
  a ← group_a; b ← group_b; [(a, b, gain D a.2 b.2)].

(** Lines 203-204: the labels of the chosen pair are exchanged. *)
Definition swap_labels (a b : nat) (vs : list Vertex) : list Vertex :=
  alter (set_label LabelA) b (alter (set_label LabelB) a vs).

(** [gains[0]] of lines 194-200, read off the labels alone. *)
Definition best_candidate (vs : list Vertex) : option candidate :=
  head (sorted_reverse (candidates (compute_D_values vs)
                          (select_group LabelA vs) (select_group LabelB vs))).

(** Both groups have a member. *)
Definition both_inhabited (vs : list Vertex) : Prop :=
  select_group LabelA vs ≠ [] ∧ select_group LabelB vs ≠ [].

(** Two states that agree on everything but [D_values]. *)
Definition same_but_D (st st' : locals) : Prop :=
  l_vertices st = l_vertices st'
  ∧ total_gain st = total_gain st'
  ∧ iterations st = iterations st'.

Definition sumZ {X : Type} (f : X → Z) (l : list X) : Z :=
  foldr (fun x acc => f x + acc) 0 l.

(** The vertex object [i] is an endpoint of [e]. *)
Definition incident (i : nat) (e : Edge) : Prop := left_v e = i ∨ right_v e = i.

#[global] Instance incident_dec i e : Decision (incident i e).
Proof. unfold incident. apply _. Defined.

(** The vertices [vs] and the edges [es] form a simple graph as
    [Graph.__init__] links it: ids and edge objects are distinct, each
    adjacency list holds exactly the incident edges, the endpoint ids are
    those of the endpoint objects, and no edge is a self-loop. *)
Record well_linked (vs : list Vertex) (es : list Edge) : Prop := {
  wl_ids : NoDup (id <$> vs);
  wl_eids : NoDup (eid <$> es);
  wl_adjacency : ∀ i v, vs !! i = Some v → edges v = filter (incident i) es;
  wl_left : ∀ e, e ∈ es → id <$> vs !! left_v e = Some (left_id e);
  wl_right : ∀ e, e ∈ es → id <$> vs !! right_v e = Some (right_id e);
  wl_no_loop : ∀ e, e ∈ es → left_v e ≠ right_v e
}.

Definition all_labelled (vs : list Vertex) : Prop :=
  ∀ v, v ∈ vs → is_Some (partition_label v).

(** The summand of [get_D_value] for one incident edge. *)
Definition D_term (vs : list Vertex) (self : Vertex) (edge : Edge) : Z :=
  let other_v := if bool_decide (right_id edge = id self)
                 then left_v edge else right_v edge in
  if bool_decide (label_at vs other_v ≠ partition_label self) then 1 else -1.

(** What a vertex keeps for its whole life: its id and its adjacency. *)
Definition shape (v : Vertex) : Z * list Edge := (id v, edges v).

(** No pair of the edge list is the reverse of a pair of the list (so no
    pair is a self-loop either). *)
Definition no_reversed (raw : list (Z * Z)) : Prop :=
  ∀ l r, (l, r) ∈ raw → (r, l) ∉ raw.

(** The invariant of the loop of [Graph.__init__]. *)
Record linked_so_far (raw0 : list (Z * Z)) (vs : list Vertex) (es : list Edge)
  : Prop := {
  lsf_eids : ∀ j e, es !! j = Some e → eid e = j;
  lsf_adjacency : ∀ i v, vs !! i = Some v → edges v = filter (incident i) es;
  lsf_left : ∀ e, e ∈ es → id <$> vs !! left_v e = Some (left_id e);
  lsf_right : ∀ e, e ∈ es → id <$> vs !! right_v e = Some (right_id e);
  lsf_origin : ∀ e, e ∈ es → (left_id e, right_id e) ∈ raw0
}.

(** The states that the outer loop of [partition] goes through on [g]. *)
Inductive run_state (g : Graph) : locals → Prop :=
  | run_entry vs0 :
      initial_split g = Ok vs0 → run_state g (initial_locals vs0)
  | run_step st st' :
      run_state g st → outer_iteration true st = Ok (Continue, st') →
      run_state g st'.

(** The number of vertices that carry the label [l]. *)
Definition count_label (l : Label) (vs : list Vertex) : nat :=
  length (filter (fun v => partition_label v = Some l) vs).

(** ** Scenarios and observations *)

(** The vertices [vs] with the labels [ls], position by position. *)
Definition with_labels (ls : list Label) (vs : list Vertex) : list Vertex :=
  zip_with set_label ls vs.

(** The 4-cycle of scenario A. *)
Definition cycle4 : result Graph :=
  Graph_init (fresh_vertices [1; 2; 3; 4]) [(1, 2); (2, 3); (3, 4); (4, 1)].

(** The graph [r] with its labels after the initial bisection, as the
    locals on entry to the outer loop. *)
Definition entry_state (r : result Graph) : locals :=
  match g ← r; initial_split g with
  | Ok vs => initial_locals vs
  | Raise _ => initial_locals []
  end.

(** The locals after one more pass through the body of the outer loop. *)
Definition next_state (st : locals) : locals :=
  match outer_iteration true st with
  | Ok (_, st') => st'
  | Raise _ => st
  end.

Definition labels (st : locals) : list (option Label) :=
  partition_label <$> l_vertices st.

(** The labels that a run of [partition] leaves on the vertices. *)
Definition final_labels (r : result Graph) : result (list (option Label)) :=
  g ← r; '(g', _) ← partition_run true g; Ok (partition_label <$> vertices g').

Definition cost_of (r : result Graph) (st : locals) : result Z :=
  g ← r; Ok (cost_in g st).

(** Vertices 1,2,3,4 with the edges 1-3 and 2-4. *)
Definition crossed4 : result Graph :=
  Graph_init (fresh_vertices [1; 2; 3; 4]) [(1, 3); (2, 4)].

(** The netlists "1 2 / 2 3", "1 2 / 1 3", "1 2 / 1 2" and
    "1 2 / 1 3 / 2 4 / 2 5 / 3 5". *)
Definition path3 : result Graph := read_netlist [(1, 2); (2, 3)].
Definition star3 : result Graph := read_netlist [(1, 2); (1, 3)].
Definition doubled_edge : result Graph := read_netlist [(1, 2); (1, 2)].
Definition house5 : result Graph :=
  read_netlist [(1, 2); (1, 3); (2, 4); (2, 5); (3, 5)].

(** ** Vocabulary of the further properties *)

(** The pair of endpoint ids an [Edge] was created with. *)
Definition edge_ids (e : Edge) : Z * Z := (left_id e, right_id e).

(** The ids named by the lines of a netlist, in reading order. *)
Definition endpoints (lines : list (Z * Z)) : list Z :=
  lines ≫= fun p => [p.1; p.2].

(** The ids of a sequence in order of first appearance, after [acc]. *)
Definition first_seen_step (acc : list Z) (k : Z) : list Z :=
  if decide (k ∈ acc) then acc else acc ++ [k].

Definition first_seen (ks : list Z) : list Z := foldl first_seen_step [] ks.

(** The graph a successful construction returned. *)
Definition graph_of (r : result Graph) : Graph :=
  match r with
  | Ok g => g
  | Raise _ => {| vertices := []; graph_edges := [] |}
  end.

(** No two entries of the list are the reverse of one another. *)
Definition reverse_free (es : list Edge) : Prop :=
  ∀ i j e e', es !! i = Some e → es !! j = Some e' → i ≠ j →
    ¬ (left_id e = right_id e' ∧ right_id e = left_id e').

(** The sign with which an edge to a swapped vertex enters the D-value of a
    vertex labelled [l]. *)
Definition label_sign (l : option Label) : Z :=
  match l with
  | Some LabelA => 1
  | Some LabelB => -1
  | None => 0
  end.

(** ** write_output *)

Definition newline : Ascii.ascii := Ascii.ascii_of_nat 10.
Definition space : Ascii.ascii := Ascii.ascii_of_nat 32.

(** [sep.join(l)] *)
Fixpoint str_join (sep : string) (l : list string) : string :=
  match l with
  | [] => ""
  | x :: l' =>
      match l' with
      | [] => x
      | _ :: _ => x +:+ sep +:+ str_join sep l'
      end
  end.

(** [write_output(file_path, cutset, partition1, partition2)]: the text that
    the three calls of [f.write] leave in the file opened with mode 'w'.
    [cutset] is the string that [partition] returns, so [str(cutset)] is
    [cutset]. *)
Definition write_output (cutset : string) (partition1 partition2 : list Z)
  : string :=
  (cutset +:+ String newline "")
  +:+ ((str_join (String space "") (pretty <$> partition1) +:+ String newline "")
       +:+ (str_join (String space "") (pretty <$> partition2)
            +:+ String newline "")).

(** Every character of the string satisfies [P]. *)
Fixpoint all_chars (P : Ascii.ascii → Prop) (s : string) : Prop :=
  match s with
  | EmptyString => True
  | String c s' => P c ∧ all_chars P s'
  end.

(** A character that neither separates numbers nor ends a line. *)
Definition word_char (c : Ascii.ascii) : Prop := c ≠ space ∧ c ≠ newline.

(** A non-empty string of such characters. *)
Definition word (s : string) : Prop := s ≠ EmptyString ∧ all_chars word_char s.

(** * Properties *)

(** ** The initial bisection *)

Lemma set_partition_label_ok (vs : list Vertex) i l :
  (i < length vs)%nat →
  ∃ v, vs !! i = Some v ∧ set_partition_label vs i l = Ok (<[i := set_label l v]> vs).
Proof.
  intros Hi. apply lookup_lt_is_Some in Hi as [v Hv].
  exists v. unfold set_partition_label. by rewrite Hv.
Qed.

Lemma initial_bisection_seq half k : ∀ s (vs : list Vertex),
  (s + k ≤ half)%nat → (half + s + k ≤ length vs)%nat →
  initial_bisection half (seq s k) vs = Ok (imap (bisected s k half) vs).
Proof.
  induction k as [|k IH]; intros s vs Hk Hlen; simpl.
  - f_equal. apply list_eq. intros j. rewrite list_lookup_imap.
    destruct (vs !! j) as [v|]; simpl; [|done].
    unfold bisected. repeat case_decide; try lia. done.
  - destruct (set_partition_label_ok vs s LabelA) as (v & Hv & ->); [lia|].
    simpl. cbn.
    destruct (set_partition_label_ok (<[s := set_label LabelA v]> vs)
                (s + half) LabelB) as (w & Hw & ->).
    { rewrite length_insert. lia. }
    cbn. rewrite IH; [|lia|rewrite !length_insert; lia].
    f_equal. apply list_eq. intros j. rewrite !list_lookup_imap.
    rewrite list_lookup_insert_ne in Hw by lia.
    destruct (decide (j = (s + half)%nat)) as [->|Hj1].
    { rewrite list_lookup_insert_eq by (rewrite length_insert; lia).
      rewrite Hw. simpl. f_equal. unfold bisected.
      repeat case_decide; try lia. done. }
    rewrite list_lookup_insert_ne by lia.
    destruct (decide (j = s)) as [->|Hj2].
    { rewrite list_lookup_insert_eq by lia.
      rewrite Hv. simpl. f_equal. unfold bisected.
      repeat case_decide; try lia. done. }
    rewrite list_lookup_insert_ne by lia.
    destruct (vs !! j) as [u|]; simpl; [|done].
    f_equal. unfold bisected. repeat case_decide; try lia; done.
Qed.

Lemma initial_split_eq (g : Graph) :
  initial_split g
  = Ok (imap (bisected 0 (length (vertices g) / 2)
                       (length (vertices g) / 2)) (vertices g)).
Proof.
  unfold initial_split.
  pose proof (Nat.Div0.mul_div_le (length (vertices g)) 2).
  apply initial_bisection_seq; lia.
Qed.

(** ** The pieces of one outer iteration *)

Lemma elem_of_select_group l (vs : list Vertex) i v :
  (i, v) ∈ select_group l vs ↔ vs !! i = Some v ∧ partition_label v = Some l.
Proof.
  unfold select_group. rewrite list_elem_of_filter, elem_of_lookup_imap. simpl.
  split.
  - intros (Hl & j & w & [= -> ->] & Hw). done.
  - intros [Hv Hl]. split; [done|]. by exists i, v.
Qed.

Lemma select_group_nonempty l (vs : list Vertex) i v :
  vs !! i = Some v → partition_label v = Some l → select_group l vs ≠ [].
Proof.
  intros Hv Hl Hnil.
  assert (Hin : (i, v) ∈ select_group l vs) by by apply elem_of_select_group.
  rewrite Hnil in Hin. by apply not_elem_of_nil in Hin.
Qed.

(** The keys of a dict filled by a comprehension over [vs]. *)
Lemma foldl_insert_is_Some {V} (f : Vertex → V) (vs : list Vertex) : ∀ (D : gmap Z V) k,
  is_Some (foldl (fun D v => <[id v := f v]> D) D vs !! k)
  ↔ k ∈ id <$> vs ∨ is_Some (D !! k).
Proof.
  induction vs as [|v vs IH]; intros D k; simpl.
  - rewrite elem_of_nil. naive_solver.
  - rewrite IH, lookup_insert_is_Some', elem_of_cons. naive_solver.
Qed.

Lemma compute_D_values_is_Some (vs : list Vertex) v :
  v ∈ vs → is_Some (compute_D_values vs !! id v).
Proof.
  intros Hv. apply foldl_insert_is_Some. left. by apply list_elem_of_fmap_2.
Qed.

Lemma compute_D_values_covers l (vs : list Vertex) :
  covers (compute_D_values vs) (select_group l vs).
Proof.
  intros [i v] Hx. apply elem_of_select_group in Hx as [Hv _].
  apply compute_D_values_is_Some. by eapply list_elem_of_lookup_2.
Qed.

Lemma dict_get_covers (D : gmap Z Z) group x :
  covers D group → x ∈ group → dict_get D (id x.2) = Ok (D !!! id x.2).
Proof.
  intros Hc Hx. destruct (Hc x Hx) as [d Hd].
  unfold dict_get. rewrite Hd. f_equal. symmetry.
  by apply lookup_total_correct.
Qed.

Lemma gains_row_ok D a (group_a group_b : list (nat * Vertex)) :
  covers D group_a → a ∈ group_a → covers D group_b →
  gains_row D a group_b = Ok (b ← group_b; [(a, b, gain D a.2 b.2)]).
Proof.
  intros Ha Hin. induction group_b as [|b bs IH]; intros Hb; [done|].
  simpl. rewrite (dict_get_covers D group_a a) by done. cbn.
  rewrite (dict_get_covers D (b :: bs) b) by (done || left). cbn.
  rewrite IH; [done|]. intros x Hx. apply Hb. by right.
Qed.

Lemma compute_gains_ok D (group_a group_b : list (nat * Vertex)) :
  covers D group_a → covers D group_b →
  compute_gains D group_a group_b = Ok (candidates D group_a group_b).
Proof.
  intros Ha Hb. unfold candidates.
  induction group_a as [|a group_a IH]; [done|].
  simpl. rewrite (gains_row_ok D a (a :: group_a)) by (done || left). cbn.
  rewrite IH; [done|]. intros x Hx. apply Ha. by right.
Qed.

Lemma elem_of_candidates D group_a group_b (c : candidate) :
  c ∈ candidates D group_a group_b
  ↔ c.1.1 ∈ group_a ∧ c.1.2 ∈ group_b ∧ c.2 = gain D c.1.1.2 c.1.2.2.
Proof.
  unfold candidates. rewrite list_elem_of_bind. split.
  - intros (a & Hc & Ha). apply list_elem_of_bind in Hc as (b & Hc & Hb).
    apply list_elem_of_singleton in Hc as ->. done.
  - destruct c as [[a b] g]. simpl. intros (Ha & Hb & ->).
    exists a. split; [|done]. apply list_elem_of_bind. exists b.
    split; [|done]. by apply list_elem_of_singleton.
Qed.

Lemma candidates_nonempty D group_a group_b :
  group_a ≠ [] → group_b ≠ [] → candidates D group_a group_b ≠ [].
Proof.
  destruct group_a as [|a ?]; [done|]. destruct group_b as [|b ?]; [done|].
  done.
Qed.

(** ** The stable descending sort *)

(** The head of the sorted list is the first entry of maximal gain. *)
Lemma sorted_reverse_head (gains : list candidate) :
  gains ≠ [] →
  ∃ x rest pre post,
    sorted_reverse gains = x :: rest
    ∧ gains = pre ++ x :: post
    ∧ Forall (fun y => y.2 < x.2) pre
    ∧ Forall (fun y => y.2 ≤ x.2) post.
Proof.
  induction gains as [|y gains IH]; [done|]. intros _.
  destruct gains as [|z gains].
  { exists y, [], [], []. by repeat split. }
  destruct IH as (x & rest & pre & post & Hs & Hg & Hpre & Hpost); [done|].
  change (sorted_reverse (y :: z :: gains))
    with (insert_desc y (sorted_reverse (z :: gains))).
  rewrite Hs, Hg. simpl. case_bool_decide as Hxy.
  - exists y, (x :: rest), [], (pre ++ x :: post). repeat split; [done|].
    apply Forall_app. split.
    + eapply Forall_impl; [exact Hpre|]. simpl. lia.
    + constructor; [done|]. eapply Forall_impl; [exact Hpost|]. simpl. lia.
  - exists x, (insert_desc y rest), (y :: pre), post. repeat split; [|done].
    constructor; [lia|done].
Qed.

(** ** [list.remove] and the update of [D_values] *)

Lemma list_remove_ok ref (group : list (nat * Vertex)) :
  ref ∈ group.*1 →
  ∃ group', list_remove ref group = Ok group' ∧ group' ⊆ group.
Proof.
  induction group as [|x group IH]; simpl.
  - intros H. by apply elem_of_nil in H.
  - intros H. case_bool_decide as Hx.
    + exists group. split; [done|]. set_solver.
    + apply elem_of_cons in H as [H|H]; [done|].
      destruct (IH H) as (group' & -> & Hsub). cbn.
      exists (x :: group'). split; [done|]. set_solver.
Qed.

Lemma update_D_values_ok first second (group : list (nat * Vertex)) : ∀ D,
  covers D group →
  ∃ D', update_D_values first second group D = Ok D'
        ∧ ∀ k, is_Some (D !! k) → is_Some (D' !! k).
Proof.
  induction group as [|x group IH]; intros D Hc; simpl.
  - by exists D.
  - rewrite (dict_get_covers D (x :: group) x) by (done || left). cbn.
    edestruct IH as (D' & -> & HD').
    { intros y Hy. apply lookup_insert_is_Some'. right. apply Hc. by right. }
    exists D'. split; [done|]. intros k Hk. apply HD'.
    apply lookup_insert_is_Some'. by right.
Qed.

(** ** One outer iteration *)

(** What one iteration does when both groups are inhabited: it takes the
    head of the sorted candidates, breaks when its gain is not positive and
    swaps the pair otherwise. *)
Lemma outer_iteration_spec incremental (st : locals) :
  let vs := l_vertices st in
  let D := compute_D_values vs in
  select_group LabelA vs ≠ [] → select_group LabelB vs ≠ [] →
  ∃ a b max_gain,
    best_candidate vs = Some (a, b, max_gain)
    ∧ ((max_gain ≤ 0
        ∧ outer_iteration incremental st
          = Ok (Break, {| l_vertices := vs; D_values := D;
                          total_gain := total_gain st;
                          iterations := S (iterations st) |}))
       ∨ (0 < max_gain
          ∧ ∃ D', outer_iteration incremental st
                  = Ok (Continue,
                        {| l_vertices := swap_labels a.1 b.1 vs; D_values := D';
                           total_gain := total_gain st + max_gain;
                           iterations := S (iterations st) |}))).
Proof.
  intros vs D HA HB.
  pose proof (compute_D_values_covers LabelA vs) as HcA.
  pose proof (compute_D_values_covers LabelB vs) as HcB.
  destruct (sorted_reverse_head (candidates D (select_group LabelA vs)
                                               (select_group LabelB vs)))
    as ([[a b] mg] & rest & pre & post & Hs & Hg & Hpre & Hpost).
  { by apply candidates_nonempty. }
  exists a, b, mg. split.
  { unfold best_candidate. fold D. by rewrite Hs. }
  assert (Hin : (a, b, mg) ∈ candidates D (select_group LabelA vs)
                                          (select_group LabelB vs)).
  { rewrite Hg. apply elem_of_app. right. left. }
  apply elem_of_candidates in Hin as (Ha & Hb & _). simpl in Ha, Hb.
  unfold outer_iteration. fold vs. fold D.
  rewrite (compute_gains_ok D _ _ HcA HcB). cbn. rewrite Hs.
  case_bool_decide as Hmg; [left; done|]. right. split; [lia|].
  destruct (list_remove_ok a.1 (select_group LabelA vs)) as (ga & -> & HgA).
  { by apply list_elem_of_fmap_2. }
  destruct (list_remove_ok b.1 (select_group LabelB vs)) as (gb & -> & HgB).
  { by apply list_elem_of_fmap_2. }
  cbn. destruct incremental; cbn; [|by eexists].
  destruct (update_D_values_ok a.2 b.2 ga D) as (D1 & -> & HD1).
  { intros x Hx. apply HcA. by apply HgA. }
  cbn.
  destruct (update_D_values_ok b.2 a.2 gb D1) as (D2 & -> & HD2).
  { intros x Hx. apply HD1, HcB. by apply HgB. }
  cbn. by eexists.
Qed.

(** The chosen entry is the first of maximal gain in generation order. *)
Lemma best_candidate_first_max (vs : list Vertex) a b max_gain :
  best_candidate vs = Some (a, b, max_gain) →
  ∃ pre post,
    candidates (compute_D_values vs) (select_group LabelA vs)
               (select_group LabelB vs) = pre ++ (a, b, max_gain) :: post
    ∧ Forall (fun y => y.2 < max_gain) pre
    ∧ Forall (fun y => y.2 ≤ max_gain) post.
Proof.
  unfold best_candidate. intros Hbest.
  destruct (candidates _ _ _) as [|c cs] eqn:Hc; [done|].
  destruct (sorted_reverse_head (c :: cs))
    as (x & rest & pre & post & Hs & Hg & Hpre & Hpost); [done|].
  rewrite Hs in Hbest. injection Hbest as ->.
  exists pre, post. by rewrite Hg.
Qed.

Lemma best_candidate_in (vs : list Vertex) a b max_gain :
  best_candidate vs = Some (a, b, max_gain) →
  a ∈ select_group LabelA vs ∧ b ∈ select_group LabelB vs
  ∧ max_gain = gain (compute_D_values vs) a.2 b.2.
Proof.
  intros (pre & post & Hg & _)%best_candidate_first_max.
  assert (Hin : (a, b, max_gain) ∈ candidates (compute_D_values vs)
                  (select_group LabelA vs) (select_group LabelB vs)).
  { rewrite Hg. apply elem_of_app. right. left. }
  by apply elem_of_candidates in Hin.
Qed.

Lemma swap_labels_length a b (vs : list Vertex) :
  length (swap_labels a b vs) = length vs.
Proof. unfold swap_labels. by rewrite !length_alter. Qed.

Lemma swap_labels_lookup_a a b (vs : list Vertex) va :
  a ≠ b → vs !! a = Some va →
  swap_labels a b vs !! a = Some (set_label LabelB va).
Proof.
  intros Hab Ha. unfold swap_labels.
  rewrite list_lookup_alter_ne by done.
  by rewrite list_lookup_alter_eq, Ha.
Qed.

Lemma swap_labels_lookup_b a b (vs : list Vertex) vb :
  a ≠ b → vs !! b = Some vb →
  swap_labels a b vs !! b = Some (set_label LabelA vb).
Proof.
  intros Hab Hb. unfold swap_labels.
  rewrite list_lookup_alter_eq, list_lookup_alter_ne by done.
  by rewrite Hb.
Qed.

Lemma swap_labels_lookup_ne a b (vs : list Vertex) j :
  j ≠ a → j ≠ b → swap_labels a b vs !! j = vs !! j.
Proof.
  intros Ha Hb. unfold swap_labels.
  by rewrite !list_lookup_alter_ne by done.
Qed.

(** Members of different groups are different objects. *)
Lemma select_group_disjoint (vs : list Vertex) a b :
  a ∈ select_group LabelA vs → b ∈ select_group LabelB vs → a.1 ≠ b.1.
Proof.
  destruct a as [i v], b as [j w]. simpl.
  intros [Hv Hl]%elem_of_select_group [Hw Hl']%elem_of_select_group ->.
  congruence.
Qed.

Lemma swap_labels_inhabited (vs : list Vertex) a b :
  a ∈ select_group LabelA vs → b ∈ select_group LabelB vs →
  both_inhabited (swap_labels a.1 b.1 vs).
Proof.
  intros Ha Hb. pose proof (select_group_disjoint vs a b Ha Hb) as Hne.
  destruct a as [i v], b as [j w]. simpl in *.
  apply elem_of_select_group in Ha as [Hv _].
  apply elem_of_select_group in Hb as [Hw _].
  split.
  - eapply select_group_nonempty; [by apply swap_labels_lookup_b|done].
  - eapply select_group_nonempty; [by apply swap_labels_lookup_a|done].
Qed.

(** The outer loop never raises, and each pass through its body is counted
    once. *)
Lemma outer_loop_returns incremental n : ∀ st,
  n = O ∨ both_inhabited (l_vertices st) →
  ∃ st', outer_loop incremental n st = Ok st'
         ∧ (iterations st' ≤ iterations st + n)%nat
         ∧ length (l_vertices st') = length (l_vertices st).
Proof.
  induction n as [|n IH]; intros st Hinv; simpl.
  { exists st. split; [done|]. split; [lia|done]. }
  destruct Hinv as [|[HA HB]]; [done|].
  destruct (outer_iteration_spec incremental st HA HB)
    as (a & b & mg & Hg & [[_ ->]|[_ [D' ->]]]); cbn.
  - eexists. split; [done|]. simpl. split; [lia|done].
  - apply best_candidate_in in Hg as (Ha & Hb & _).
    edestruct IH as (st' & -> & Hit & Hlen).
    { right. simpl. by apply swap_labels_inhabited. }
    exists st'. split; [done|]. simpl in *.
    rewrite swap_labels_length in Hlen. split; [lia|done].
Qed.

Lemma bisected_inhabited (vs : list Vertex) :
  (0 < length vs / 2)%nat →
  both_inhabited (imap (bisected 0 (length vs / 2) (length vs / 2)) vs).
Proof.
  intros Hh. pose proof (Nat.Div0.mul_div_le (length vs) 2) as Hle.
  set (h := (length vs / 2)%nat) in *.
  destruct (lookup_lt_is_Some_2 vs 0%nat) as [v0 Hv0]; [lia|].
  destruct (lookup_lt_is_Some_2 vs h) as [vh Hvh]; [lia|].
  split.
  - apply (select_group_nonempty _ _ 0%nat (set_label LabelA v0)); [|done].
    rewrite list_lookup_imap, Hv0. simpl. f_equal.
    unfold bisected. case_decide; [done|lia].
  - apply (select_group_nonempty _ _ h (set_label LabelB vh)); [|done].
    rewrite list_lookup_imap, Hvh. simpl. f_equal.
    unfold bisected. repeat case_decide; try lia; done.
Qed.

Lemma partition_run_returns incremental (g : Graph) :
  ∃ st,
    partition_run incremental g = Ok (relabel g (l_vertices st), st)
    ∧ (iterations st ≤ length (vertices g) / 2)%nat
    ∧ length (l_vertices st) = length (vertices g).
Proof.
  unfold partition_run. rewrite initial_split_eq.
  set (h := (length (vertices g) / 2)%nat).
  set (vs0 := imap (bisected 0 h h) (vertices g)).
  destruct (outer_loop_returns incremental h (initial_locals vs0))
    as (st & Hloop & Hit & Hlen).
  { destruct (decide (h = O)) as [|Hh]; [by left|right].
    apply bisected_inhabited. fold h. lia. }
  exists st. unfold mbind, result_bind. rewrite Hloop.
  split; [done|]. simpl in *. split; [lia|].
  unfold vs0 in Hlen. by rewrite length_imap in Hlen.
Qed.

(** C8: for every graph the outer loop of [partition] runs its body at most
    ⌊|V|/2⌋ times, after which [partition] returns (no exception is
    raised). *)
Theorem outer_loop_iteration_bound (g : Graph) :
  ∃ g' st,
    partition_run true g = Ok (g', st)
    ∧ (iterations st ≤ length (vertices g) / 2)%nat
    ∧ partition g = Ok (partition_result g').
Proof.
  destruct (partition_run_returns true g) as (st & Hrun & Hit & _).
  exists (relabel g (l_vertices st)), st. split; [done|]. split; [done|].
  unfold partition, partition_with. by rewrite Hrun.
Qed.

(** ** Selection of the pair *)

(** The body of the loop reads only the labels: with an empty group the
    candidate list is empty and [gains[0]] raises. *)
Lemma outer_iteration_inhabited incremental (st : locals) c st' :
  outer_iteration incremental st = Ok (c, st') →
  both_inhabited (l_vertices st).
Proof.
  unfold outer_iteration.
  rewrite (compute_gains_ok _ _ _ (compute_D_values_covers LabelA _)
                            (compute_D_values_covers LabelB _)).
  cbn. intros H.
  destruct (sorted_reverse_head (candidates (compute_D_values (l_vertices st))
              (select_group LabelA (l_vertices st))
              (select_group LabelB (l_vertices st))))
    as (x & rest & pre & post & _ & Hg & _).
  { intros Hnil. by rewrite Hnil in H. }
  assert (Hin : x ∈ candidates (compute_D_values (l_vertices st))
              (select_group LabelA (l_vertices st))
              (select_group LabelB (l_vertices st))).
  { rewrite Hg. apply elem_of_app. right. left. }
  apply elem_of_candidates in Hin as (Ha & Hb & _).
  split; intros Hnil; rewrite Hnil in *; by eapply not_elem_of_nil.
Qed.


(** ** The incremental update of [D_values] *)

Lemma outer_loop_update_irrelevant n : ∀ st st',
  same_but_D st st' →
  n = O ∨ both_inhabited (l_vertices st) →
  ∃ s s', outer_loop true n st = Ok s
          ∧ outer_loop false n st' = Ok s'
          ∧ same_but_D s s'.
Proof.
  induction n as [|n IH]; intros st st' Hsame Hinv; simpl.
  { by exists st, st'. }
  destruct Hinv as [|[HA HB]]; [done|].
  destruct Hsame as (Hvs & Htg & Hit).
  destruct (outer_iteration_spec true st HA HB)
    as (a & b & mg & Hbest & Hcase).
  rewrite Hvs in HA, HB.
  destruct (outer_iteration_spec false st' HA HB)
    as (a' & b' & mg' & Hbest' & Hcase').
  rewrite Hvs, Hbest' in Hbest. injection Hbest as <- <- <-.
  destruct Hcase as [[Hle ->]|[Hpos [D1 ->]]];
    destruct Hcase' as [[Hle' ->]|[Hpos' [D2 ->]]]; try lia; cbn.
  - do 2 eexists. split; [done|]. split; [done|].
    unfold same_but_D. simpl. by rewrite Hvs, Htg, Hit.
  - apply best_candidate_in in Hbest' as (Ha & Hb & _).
    apply IH.
    + unfold same_but_D. simpl. by rewrite Hvs, Htg, Hit.
    + right. simpl. rewrite Hvs. by apply swap_labels_inhabited.
Qed.

(** C10: removing the two loops that update [D_values] after a swap changes
    nothing that [partition] returns, on any graph. *)
Theorem D_values_update_unobservable (g : Graph) :
  partition g = partition_without_update g.
Proof.
  unfold partition, partition_without_update, partition_with, partition_run.
  rewrite initial_split_eq.
  set (h := (length (vertices g) / 2)%nat).
  set (vs0 := imap (bisected 0 h h) (vertices g)).
  destruct (outer_loop_update_irrelevant h (initial_locals vs0)
              (initial_locals vs0)) as (s & s' & Ht & Hf & Hvs & _).
  { done. }
  { destruct (decide (h = O)) as [|Hh]; [by left|right].
    apply bisected_inhabited. fold h. lia. }
  unfold mbind, result_bind. rewrite Ht, Hf. by rewrite Hvs.
Qed.

(** ** Graph construction *)

Lemma build_vertex_dict_is_Some (vs : list Vertex) : ∀ i (d : gmap Z nat) k,
  is_Some (build_vertex_dict vs i d !! k) ↔ k ∈ id <$> vs ∨ is_Some (d !! k).
Proof.
  induction vs as [|v vs IH]; intros i d k; simpl.
  - rewrite elem_of_nil. naive_solver.
  - rewrite IH, lookup_insert_is_Some', elem_of_cons. naive_solver.
Qed.

Lemma link_edges_unknown (d : gmap Z nat) (raw : list (Z * Z)) l r :
  (l, r) ∈ raw → d !! l = None ∨ d !! r = None →
  ∀ n vs es, ∃ k, link_edges d raw n vs es = Raise (KeyError k) ∧ d !! k = None.
Proof.
  intros Hin Hbad. induction raw as [|[l' r'] raw IH]; intros n vs es.
  { by apply elem_of_nil in Hin. }
  simpl. unfold dict_get.
  destruct (d !! l') as [lv|] eqn:Hl; cbn; [|by exists l'].
  destruct (d !! r') as [rv|] eqn:Hr; cbn; [|by exists r'].
  apply elem_of_cons in Hin as [[= -> ->]|Hin].
  - destruct Hbad; congruence.
  - by apply IH.
Qed.

(** C9 (as stated, refuted): with vertices 1 and 2 and the edges (1,2) and
    (1,7), [Graph.__init__] raises, but the exception is not an
    [UnknownVertexError]: it is the built-in [KeyError] with key 7. *)
Lemma Graph_init_raises_KeyError_not_UnknownVertexError :
  Graph_init (fresh_vertices [1; 2]) [(1, 2); (1, 7)] = Raise (KeyError 7)
  ∧ ¬ ∃ e, Graph_init (fresh_vertices [1; 2]) [(1, 2); (1, 7)] = Raise e
           ∧ exn_name e = "UnknownVertexError"%string.
Proof.
  split; [vm_compute; reflexivity|].
  intros (e & He & Hname). vm_compute in He. injection He as <-.
  vm_compute in Hname. discriminate Hname.
Qed.

(** C9 (amended): when some edge names a vertex id that no vertex of the list
    carries, [Graph.__init__] raises the built-in [KeyError] of the dict
    lookup, on an id absent from the vertex list, and does not return a
    graph. *)
Theorem Graph_init_unknown_vertex (vs : list Vertex) (raw : list (Z * Z)) l r :
  (l, r) ∈ raw → l ∉ id <$> vs ∨ r ∉ id <$> vs →
  ∃ k, Graph_init vs raw = Raise (KeyError k)
       ∧ exn_name (KeyError k) = "KeyError"%string
       ∧ k ∉ id <$> vs.
Proof.
  intros Hin Hbad. unfold Graph_init.
  assert (Hnone : ∀ k, k ∉ id <$> vs ↔ build_vertex_dict vs 0 ∅ !! k = None).
  { intros k. rewrite eq_None_not_Some, build_vertex_dict_is_Some.
    rewrite lookup_empty, is_Some_alt. naive_solver. }
  destruct (link_edges_unknown (build_vertex_dict vs 0 ∅) raw l r Hin)
    with (n := O) (vs := vs) (es := @nil Edge) as (k & -> & Hk).
  { by rewrite <- !Hnone. }
  exists k. split; [done|]. split; [done|]. by apply Hnone.
Qed.

(** Vertices 1 and 2 with the edges (1,2) and (1,7): id 7 is unknown. *)
Lemma Graph_init_unknown_vertex_witness :
  (1, 7) ∈ [(1, 2); (1, 7)]
  ∧ (1 ∉ id <$> fresh_vertices [1; 2] ∨ 7 ∉ id <$> fresh_vertices [1; 2])
  ∧ ∃ k, Graph_init (fresh_vertices [1; 2]) [(1, 2); (1, 7)] = Raise (KeyError k)
         ∧ exn_name (KeyError k) = "KeyError"%string
         ∧ k ∉ id <$> fresh_vertices [1; 2].
Proof.
  assert (H1 : (1, 7) ∈ [(1, 2); (1, 7)]) by (right; left).
  assert (H2 : 1 ∉ id <$> fresh_vertices [1; 2] ∨ 7 ∉ id <$> fresh_vertices [1; 2]).
  { right. simpl. rewrite !elem_of_cons, elem_of_nil. intros [|[|]]; done. }
  split; [exact H1|]. split; [exact H2|].
  exact (Graph_init_unknown_vertex (fresh_vertices [1; 2]) [(1, 2); (1, 7)] 1 7 H1 H2).
Defined.

(** ** The empty graph *)

(** C7: on a graph with no vertices [partition] runs the body of the outer
    loop zero times, raises nothing, and returns cut "0" with two empty
    groups; the only such graph that [Graph.__init__] builds has no edges. *)
Theorem partition_empty_graph :
  Graph_init [] [] = Ok {| vertices := []; graph_edges := [] |}
  ∧ ∀ es,
      let g := {| vertices := []; graph_edges := es |} in
      partition_run true g = Ok (g, initial_locals [])
      ∧ iterations (initial_locals []) = O
      ∧ partition g = Ok ("0"%string, [], []).
Proof.
  split; [done|]. intros es g.
  assert (Hcost : get_partition_cost g = 0).
  { unfold get_partition_cost. simpl.
    induction es as [|e es IH]; [done|].
    rewrite filter_cons. by case_decide. }
  assert (Hrun : partition_run true g = Ok (g, initial_locals [])) by done.
  split; [done|]. split; [done|].
  unfold partition, partition_with. rewrite Hrun.
  unfold mbind, result_bind, partition_result. by rewrite Hcost.
Qed.

(** ** Sums over lists *)

Lemma sumZ_ext_in {X} (f h : X → Z) (l : list X) :
  (∀ x, x ∈ l → f x = h x) → sumZ f l = sumZ h l.
Proof.
  induction l as [|x l IH]; intros Hfh; simpl; [done|].
  rewrite Hfh by left. rewrite IH; [done|]. intros y Hy. apply Hfh. by right.
Qed.

Lemma sumZ_filter {X} (f : X → Z) (P : X → Prop) `{!∀ x, Decision (P x)}
    (l : list X) :
  sumZ f (filter P l) = sumZ (fun x => if decide (P x) then f x else 0) l.
Proof.
  induction l as [|x l IH]; simpl; [done|].
  rewrite filter_cons. case_decide; simpl; by rewrite IH.
Qed.

Lemma length_filter_sumZ {X} (P : X → Prop) `{!∀ x, Decision (P x)} (l : list X) :
  Z.of_nat (length (filter P l)) = sumZ (fun x => if decide (P x) then 1 else 0) l.
Proof.
  induction l as [|x l IH]; simpl; [done|].
  rewrite filter_cons. case_decide; simpl; lia.
Qed.

Lemma sumZ_combine {X} (f1 f2 f3 : X → Z) (l : list X) :
  sumZ (fun x => f1 x + f2 x - 2 * f3 x) l
  = sumZ f1 l + sumZ f2 l - 2 * sumZ f3 l.
Proof. induction l as [|x l IH]; simpl; lia. Qed.

Lemma sumZ_sub {X} (f1 f2 : X → Z) (l : list X) :
  sumZ (fun x => f1 x - f2 x) l = sumZ f1 l - sumZ f2 l.
Proof. induction l as [|x l IH]; simpl; lia. Qed.

Lemma foldl_sumZ {X} (f : X → Z) (l : list X) : ∀ z,
  foldl (fun acc x => acc + f x) z l = z + sumZ f l.
Proof.
  induction l as [|x l IH]; intros z; simpl; [lia|]. rewrite IH. lia.
Qed.

(** ** D-values on a table with distinct keys *)

Lemma foldl_insert_lookup_notin {V} (f : Vertex → V) (vs : list Vertex) :
  ∀ (D : gmap Z V) k,
    k ∉ id <$> vs →
    foldl (fun D v => <[id v := f v]> D) D vs !! k = D !! k.
Proof.
  induction vs as [|v vs IH]; intros D k Hk; simpl; [done|].
  rewrite fmap_cons, not_elem_of_cons in Hk. destruct Hk as [Hne Hk].
  rewrite IH by done. by rewrite lookup_insert_ne.
Qed.

Lemma foldl_insert_lookup {V} (f : Vertex → V) (vs : list Vertex) :
  ∀ (D : gmap Z V) v,
    NoDup (id <$> vs) → v ∈ vs →
    foldl (fun D v => <[id v := f v]> D) D vs !! id v = Some (f v).
Proof.
  induction vs as [|w vs IH]; intros D v Hnd Hv; simpl.
  { by apply elem_of_nil in Hv. }
  rewrite fmap_cons in Hnd. apply NoDup_cons in Hnd as [Hw Hnd].
  apply elem_of_cons in Hv as [->|Hv].
  - rewrite foldl_insert_lookup_notin by done. by rewrite lookup_insert_eq.
  - by apply IH.
Qed.

Lemma compute_D_values_lookup (vs : list Vertex) v :
  NoDup (id <$> vs) → v ∈ vs →
  compute_D_values vs !!! id v = get_D_value vs v.
Proof.
  intros Hnd Hv. apply lookup_total_correct.
  by apply (foldl_insert_lookup (get_D_value vs)).
Qed.

(** ** Graphs whose adjacency lists agree with the edge list *)

Lemma get_D_value_sum (vs : list Vertex) self :
  get_D_value vs self = sumZ (D_term vs self) (edges self).
Proof.
  unfold get_D_value.
  rewrite <- (Z.add_0_l (sumZ _ _)).
  apply (foldl_sumZ (D_term vs self) (edges self) 0).
Qed.

Lemma NoDup_fmap_elem_inj {X Y} (f : X → Y) (l : list X) x y :
  NoDup (f <$> l) → x ∈ l → y ∈ l → f x = f y → x = y.
Proof.
  induction l as [|z l IH]; intros Hnd Hx Hy Hf.
  { by apply elem_of_nil in Hx. }
  rewrite fmap_cons in Hnd. apply NoDup_cons in Hnd as [Hz Hnd].
  apply elem_of_cons in Hx as [->|Hx]; apply elem_of_cons in Hy as [->|Hy].
  - done.
  - exfalso. apply Hz. rewrite Hf. by apply list_elem_of_fmap_2.
  - exfalso. apply Hz. rewrite <- Hf. by apply list_elem_of_fmap_2.
  - by apply IH.
Qed.

Lemma lookup_id_inj (vs : list Vertex) i j v w :
  NoDup (id <$> vs) → vs !! i = Some v → vs !! j = Some w → id v = id w → i = j.
Proof.
  intros Hnd Hi Hj Hid.
  eapply NoDup_lookup; [exact Hnd| |].
  - by rewrite list_lookup_fmap, Hi.
  - by rewrite list_lookup_fmap, Hj, Hid.
Qed.

(** Resolves every [decide] on a fact about indices that [lia] settles. *)
Ltac decide_by_lia :=
  repeat match goal with
         | |- context [@decide ?P ?d] =>
             first [ rewrite (@decide_True _ P d) by lia
                   | rewrite (@decide_False _ P d) by lia ]
         end.

(** The arithmetic of one edge [l - r] under the exchange of the labels of
    [ia] (in A) and [ib] (in B), for a labelling [lab] of the indices. *)
Lemma edge_change_abs (lab : nat → option Label) (ia ib l r : nat) :
  ia ≠ ib → l ≠ r →
  lab ia = Some LabelA → lab ib = Some LabelB →
  lab l = Some LabelA ∨ lab l = Some LabelB →
  lab r = Some LabelA ∨ lab r = Some LabelB →
  (if decide (lab l ≠ lab r) then 1 else 0)
  - (if decide ((if decide (l = ib) then Some LabelA
                 else if decide (l = ia) then Some LabelB else lab l)
                ≠ (if decide (r = ib) then Some LabelA
                   else if decide (r = ia) then Some LabelB else lab r))
     then 1 else 0)
  = (if decide (l = ia ∨ r = ia)
     then (if decide (lab (if decide (r = ia) then l else r) ≠ Some LabelA)
           then 1 else -1)
     else 0)
    + (if decide (l = ib ∨ r = ib)
       then (if decide (lab (if decide (r = ib) then l else r) ≠ Some LabelB)
             then 1 else -1)
       else 0)
    - 2 * (if decide ((l = ia ∨ r = ia) ∧ (l = ib ∨ r = ib)) then 1 else 0).
Proof.
  intros Hab Hlr HA HB Hl Hr.
  destruct (decide (l = ia)) as [El|El]; destruct (decide (r = ia)) as [Er|Er];
    destruct (decide (l = ib)) as [Fl|Fl]; destruct (decide (r = ib)) as [Fr|Fr];
    try lia; subst; decide_by_lia;
    destruct Hl as [Hl|Hl], Hr as [Hr|Hr];
    rewrite ?HA, ?HB, ?Hl, ?Hr in *; try congruence; reflexivity.
Qed.

Section swap.
Context (vs : list Vertex) (es : list Edge) (ia ib : nat) (va vb : Vertex).
Hypothesis Hwl : well_linked vs es.
Hypothesis Hlab : all_labelled vs.
Hypothesis Ha : vs !! ia = Some va.
Hypothesis Hb : vs !! ib = Some vb.
Hypothesis HlA : partition_label va = Some LabelA.
Hypothesis HlB : partition_label vb = Some LabelB.

Lemma swap_ne : ia ≠ ib.
Proof using Ha Hb HlA HlB. intros ->. congruence. Qed.

Lemma common_edges_count :
  common_edges va vb
  = Z.of_nat (length (filter (fun e => incident ia e ∧ incident ib e) es)).
Proof using Hwl Ha Hb.
  unfold common_edges.
  rewrite (wl_adjacency _ _ Hwl ia va Ha), (wl_adjacency _ _ Hwl ib vb Hb).
  assert (Heq : (list_to_set (eid <$> filter (incident ia) es) : gset nat)
                ∩ list_to_set (eid <$> filter (incident ib) es)
                = list_to_set (eid <$> filter
                    (fun e => incident ia e ∧ incident ib e) es)).
  { apply set_eq. intros x.
    rewrite elem_of_intersection, !elem_of_list_to_set, !list_elem_of_fmap.
    split.
    - intros [(e & -> & He) (e' & Hx & He')].
      apply list_elem_of_filter in He as [Hia He].
      apply list_elem_of_filter in He' as [Hib He'].
      assert (e = e') as <-.
      { eapply NoDup_fmap_elem_inj; [apply (wl_eids _ _ Hwl)|done..]. }
      exists e. split; [done|]. by apply list_elem_of_filter.
    - intros (e & -> & He). apply list_elem_of_filter in He as [[Hia Hib] He].
      split; exists e; (split; [done|]); by apply list_elem_of_filter. }
  rewrite Heq, size_list_to_set; [by rewrite length_fmap|].
  eapply sublist_NoDup; [apply (wl_eids _ _ Hwl)|].
  apply fmap_sublist, sublist_filter.
Qed.

Lemma label_at_swap j :
  label_at (swap_labels ia ib vs) j
  = if decide (j = ib) then Some LabelA
    else if decide (j = ia) then Some LabelB
    else label_at vs j.
Proof using Ha Hb HlA HlB.
  pose proof swap_ne as Hne. unfold label_at.
  repeat case_decide; subst.
  - by rewrite (swap_labels_lookup_b ia ib vs vb).
  - by rewrite (swap_labels_lookup_a ia ib vs va).
  - by rewrite swap_labels_lookup_ne.
Qed.

Lemma label_at_cases j v :
  vs !! j = Some v → label_at vs j = Some LabelA ∨ label_at vs j = Some LabelB.
Proof using Hlab.
  intros Hv. unfold label_at. rewrite Hv. simpl.
  destruct (Hlab v) as [[|] ->]; [by eapply list_elem_of_lookup_2|by left|by right].
Qed.

(** [get_D_value] looks at the endpoint of the edge that is not [self]. *)
Lemma D_term_incident i v e :
  vs !! i = Some v → e ∈ es →
  D_term vs v e
  = if decide (label_at vs (if decide (right_v e = i) then left_v e
                            else right_v e) ≠ partition_label v)
    then 1 else -1.
Proof using Hwl.
  intros Hv He. unfold D_term.
  pose proof (wl_right _ _ Hwl e He) as Hr.
  apply fmap_Some in Hr as (vr & Hvr & Hidr).
  assert (Hri : right_id e = id v ↔ right_v e = i).
  { split.
    - intros Hid. eapply lookup_id_inj; [apply (wl_ids _ _ Hwl)|done..|congruence].
    - intros Hr. rewrite Hr in Hvr. congruence. }
  cbv zeta. rewrite (bool_decide_ext _ _ Hri).
  destruct (decide (right_v e = i)) as [Hd|Hd].
  - rewrite (bool_decide_eq_true_2 (right_v e = i) Hd).
    case_bool_decide; case_decide; tauto || lia.
  - rewrite (bool_decide_eq_false_2 (right_v e = i) Hd).
    case_bool_decide; case_decide; tauto || lia.
Qed.

(** The change of one edge's contribution to the cut is its share of
    [D(a) + D(b) - 2 c_ab]. *)
Lemma swap_edge_change e :
  e ∈ es →
  (if decide (label_at vs (left_v e) ≠ label_at vs (right_v e)) then 1 else 0)
  - (if decide (label_at (swap_labels ia ib vs) (left_v e)
                ≠ label_at (swap_labels ia ib vs) (right_v e)) then 1 else 0)
  = (if decide (incident ia e) then D_term vs va e else 0)
    + (if decide (incident ib e) then D_term vs vb e else 0)
    - 2 * (if decide (incident ia e ∧ incident ib e) then 1 else 0).
Proof using Hwl Hlab Ha Hb HlA HlB.
  intros He.
  pose proof (wl_left _ _ Hwl e He) as Hl.
  apply fmap_Some in Hl as (vl & Hvl & _).
  pose proof (wl_right _ _ Hwl e He) as Hr.
  apply fmap_Some in Hr as (vr & Hvr & _).
  rewrite !label_at_swap.
  rewrite (D_term_incident ia va e Ha He), (D_term_incident ib vb e Hb He).
  rewrite HlA, HlB.
  apply edge_change_abs.
  - apply swap_ne.
  - by apply (wl_no_loop _ _ Hwl).
  - unfold label_at. by rewrite Ha.
  - unfold label_at. by rewrite Hb.
  - by eapply label_at_cases.
  - by eapply label_at_cases.
Qed.

(** Swapping [a] and [b] lowers the cut by [D(a) + D(b) - 2 c_ab]. *)
Lemma swap_cost_change :
  get_partition_cost {| vertices := vs; graph_edges := es |}
  - get_partition_cost {| vertices := swap_labels ia ib vs; graph_edges := es |}
  = get_D_value vs va + get_D_value vs vb - 2 * common_edges va vb.
Proof using Hwl Hlab Ha Hb HlA HlB.
  unfold get_partition_cost. simpl.
  rewrite !length_filter_sumZ, <- sumZ_sub.
  rewrite (sumZ_ext_in _ _ es swap_edge_change), sumZ_combine.
  rewrite !get_D_value_sum, common_edges_count, length_filter_sumZ.
  rewrite (wl_adjacency _ _ Hwl ia va Ha), (wl_adjacency _ _ Hwl ib vb Hb).
  by rewrite !sumZ_filter.
Qed.
End swap.

(** ** Labels are the only thing [partition] changes *)

Lemma shape_set_label l v : shape (set_label l v) = shape v.
Proof. done. Qed.

Lemma shape_alter_set_label l i (vs : list Vertex) :
  shape <$> alter (set_label l) i vs = shape <$> vs.
Proof.
  apply list_eq. intros j. rewrite !list_lookup_fmap, list_lookup_alter.
  case_decide; subst; [|done]. by destruct (vs !! j).
Qed.

Lemma shape_swap_labels a b (vs : list Vertex) :
  shape <$> swap_labels a b vs = shape <$> vs.
Proof. unfold swap_labels. by rewrite !shape_alter_set_label. Qed.

Lemma shape_bisected s k h (vs : list Vertex) :
  shape <$> imap (bisected s k h) vs = shape <$> vs.
Proof.
  apply list_eq. intros j. rewrite !list_lookup_fmap, list_lookup_imap.
  destruct (vs !! j) as [v|]; [|done]. simpl. f_equal.
  unfold bisected. by repeat case_decide.
Qed.

Lemma shape_lookup (vs vs' : list Vertex) i v :
  shape <$> vs = shape <$> vs' → vs !! i = Some v →
  ∃ v', vs' !! i = Some v' ∧ id v' = id v ∧ edges v' = edges v.
Proof.
  intros Hs Hv.
  assert (H : (shape <$> vs') !! i = Some (shape v)).
  { by rewrite <- Hs, list_lookup_fmap, Hv. }
  rewrite list_lookup_fmap in H. apply fmap_Some in H as (v' & Hv' & Hsh).
  exists v'. split; [done|]. unfold shape in Hsh. by injection Hsh as -> ->.
Qed.

Lemma shape_ids (vs vs' : list Vertex) :
  shape <$> vs = shape <$> vs' → id <$> vs = id <$> vs'.
Proof.
  intros Hs. change id with (fst ∘ shape).
  by rewrite !(list_fmap_compose shape fst), Hs.
Qed.

Lemma well_linked_shape (vs vs' : list Vertex) es :
  shape <$> vs = shape <$> vs' → well_linked vs es → well_linked vs' es.
Proof.
  intros Hs [Hids Heids Hadj Hl Hr Hloop].
  pose proof (shape_ids _ _ Hs) as Hid.
  split; [by rewrite <- Hid|done| |..|done].
  - intros i v' Hv'.
    destruct (shape_lookup vs' vs i v' (eq_sym Hs) Hv') as (v & Hv & _ & <-).
    by apply Hadj.
  - intros e He. rewrite <- list_lookup_fmap, <- Hid, list_lookup_fmap. by apply Hl.
  - intros e He. rewrite <- list_lookup_fmap, <- Hid, list_lookup_fmap. by apply Hr.
Qed.

Lemma all_labelled_swap a b (vs : list Vertex) :
  all_labelled vs → all_labelled (swap_labels a b vs).
Proof.
  intros Hlab v Hv. apply list_elem_of_lookup in Hv as [j Hj].
  unfold swap_labels in Hj. rewrite !list_lookup_alter in Hj.
  repeat case_decide; subst;
    repeat match goal with
           | H : _ <$> _ = Some _ |- _ => apply fmap_Some in H as (? & ? & ->)
           end; simpl; try done.
  apply Hlab. by eapply list_elem_of_lookup_2.
Qed.

(** ** Gain and cut cost on a well-linked, fully labelled graph *)

(** On a simple graph with every vertex labelled, an accepted swap lowers
    the cut cost by exactly the gain computed for the pair. *)
Lemma accepted_swap_cost_change incremental (g : Graph) (st st' : locals) :
  well_linked (l_vertices st) (graph_edges g) →
  all_labelled (l_vertices st) →
  outer_iteration incremental st = Ok (Continue, st') →
  cost_in g st - cost_in g st' = total_gain st' - total_gain st
  ∧ 0 < total_gain st' - total_gain st
  ∧ well_linked (l_vertices st') (graph_edges g)
  ∧ all_labelled (l_vertices st').
Proof.
  intros Hwl Hlab Hit.
  destruct (outer_iteration_inhabited _ _ _ _ Hit) as [HA HB].
  destruct (outer_iteration_spec incremental st HA HB)
    as ([ia va] & [ib vb] & mg & Hbest & [[_ Hbr]|[Hpos [D' Hco]]]).
  { rewrite Hbr in Hit. discriminate Hit. }
  rewrite Hco in Hit. injection Hit as <-. simpl.
  apply best_candidate_in in Hbest as (Ha & Hb & ->).
  apply elem_of_select_group in Ha as [Ha HlA].
  apply elem_of_select_group in Hb as [Hb HlB].
  simpl in *. split; [|split; [lia|split]].
  - unfold cost_in, relabel. simpl.
    rewrite (swap_cost_change _ _ ia ib va vb Hwl Hlab Ha Hb HlA HlB).
    unfold gain.
    rewrite !compute_D_values_lookup;
      [lia|first [apply (wl_ids _ _ Hwl)|by eapply list_elem_of_lookup_2]..].
  - eapply well_linked_shape; [|exact Hwl]. by rewrite shape_swap_labels.
  - by apply all_labelled_swap.
Qed.

(** A pass that breaks leaves the labels as they are. *)
Lemma break_keeps_labels incremental (st st' : locals) :
  outer_iteration incremental st = Ok (Break, st') →
  l_vertices st' = l_vertices st ∧ total_gain st' = total_gain st.
Proof.
  intros Hit.
  destruct (outer_iteration_inhabited _ _ _ _ Hit) as [HA HB].
  destruct (outer_iteration_spec incremental st HA HB)
    as (a & b & mg & _ & [[_ Hbr]|[_ [D' Hco]]]).
  - rewrite Hbr in Hit. by injection Hit as <-.
  - rewrite Hco in Hit. discriminate Hit.
Qed.

(** ** [Graph.__init__] on a simple edge list *)

Lemma build_vertex_dict_lookup (vs : list Vertex) : ∀ i0 (d : gmap Z nat) k i,
  build_vertex_dict vs i0 d !! k = Some i →
  (∃ j, i = (i0 + j)%nat ∧ (id <$> vs) !! j = Some k) ∨ d !! k = Some i.
Proof.
  induction vs as [|v vs IH]; intros i0 d k i; simpl; [by right|].
  intros [(j & -> & Hj)|Hd]%IH.
  - left. exists (S j). split; [lia|done].
  - apply lookup_insert_Some in Hd as [[<- <-]|[_ Hd]]; [|by right].
    left. exists O. split; [lia|done].
Qed.

Lemma id_add_edge v edge : id (add_edge v edge) = id v.
Proof. unfold add_edge. by destruct (existsb _ _). Qed.

Lemma ids_alter_add_edge edge i (vs : list Vertex) :
  id <$> alter (fun v => add_edge v edge) i vs = id <$> vs.
Proof.
  apply list_eq. intros j. rewrite !list_lookup_fmap, list_lookup_alter.
  case_decide; subst; [|done].
  destruct (vs !! j); simpl; [|done]. by rewrite id_add_edge.
Qed.

(** On a simple edge list the check of [add_edge] never fires. *)
Lemma add_edge_appends raw0 (vs : list Vertex) es i v l r k lv rv :
  no_reversed raw0 → linked_so_far raw0 vs es → (l, r) ∈ raw0 →
  vs !! i = Some v →
  edges (add_edge v (mkEdge k l r lv rv)) = edges v ++ [mkEdge k l r lv rv].
Proof.
  intros Hrev Hinv Hlr Hv. unfold add_edge.
  destruct (existsb _ _) eqn:Hex; [|done]. exfalso.
  apply existsb_exists in Hex as (e & He & Hrevd).
  apply andb_true_iff in Hrevd as [H1%bool_decide_eq_true H2%bool_decide_eq_true].
  simpl in H1, H2.
  apply list_elem_of_In in He.
  rewrite (lsf_adjacency _ _ _ Hinv i v Hv) in He.
  apply list_elem_of_filter in He as [_ He].
  pose proof (lsf_origin _ _ _ Hinv e He) as Ho.
  rewrite H1, H2 in Ho. by apply (Hrev l r).
Qed.

Lemma link_step raw0 (vs : list Vertex) es l r lv rv :
  no_reversed raw0 → linked_so_far raw0 vs es → (l, r) ∈ raw0 →
  id <$> vs !! lv = Some l → id <$> vs !! rv = Some r →
  let edge := mkEdge (length es) l r lv rv in
  linked_so_far raw0
    (alter (fun v => add_edge v edge) rv (alter (fun v => add_edge v edge) lv vs))
    (es ++ [edge]).
Proof.
  intros Hrev Hinv Hlr Hlv Hrv edge.
  assert (Hne : lv ≠ rv).
  { intros ->. rewrite Hlv in Hrv. injection Hrv as ->. by apply (Hrev r r). }
  assert (Hids : ∀ j, id <$> alter (fun v => add_edge v edge) rv
                            (alter (fun v => add_edge v edge) lv vs) !! j
                      = id <$> vs !! j).
  { intros j. rewrite <- !list_lookup_fmap. by rewrite !ids_alter_add_edge. }
  subst edge. split.
  - intros j e Hj. apply lookup_app_Some in Hj as [Hj|[Hlen Hj]].
    + by apply (lsf_eids _ _ _ Hinv).
    + apply list_lookup_singleton_Some in Hj as [Hj <-]. simpl. lia.
  - intros i v' Hv'. rewrite filter_app.
    rewrite list_lookup_alter in Hv'. case_decide as Hi.
    + subst i. rewrite list_lookup_alter_ne in Hv' by done.
      apply fmap_Some in Hv' as (v & Hv & ->).
      rewrite (add_edge_appends raw0 vs es rv v) by done.
      rewrite (lsf_adjacency _ _ _ Hinv rv v Hv). f_equal.
      rewrite filter_cons, filter_nil. unfold incident. simpl.
      by rewrite decide_True by by right.
    + rewrite list_lookup_alter in Hv'. case_decide as Hi'.
      * subst i. apply fmap_Some in Hv' as (v & Hv & ->).
        rewrite (add_edge_appends raw0 vs es lv v) by done.
        rewrite (lsf_adjacency _ _ _ Hinv lv v Hv). f_equal.
        rewrite filter_cons, filter_nil. unfold incident. simpl.
        by rewrite decide_True by by left.
      * rewrite (lsf_adjacency _ _ _ Hinv i v' Hv').
        rewrite filter_cons, filter_nil. unfold incident. simpl.
        rewrite decide_False by naive_solver. by rewrite app_nil_r.
  - intros e [He|He%list_elem_of_singleton]%elem_of_app; rewrite Hids.
    + by apply (lsf_left _ _ _ Hinv).
    + by subst e.
  - intros e [He|He%list_elem_of_singleton]%elem_of_app; rewrite Hids.
    + by apply (lsf_right _ _ _ Hinv).
    + by subst e.
  - intros e [He|He%list_elem_of_singleton]%elem_of_app.
    + by apply (lsf_origin _ _ _ Hinv).
    + by subst e.
Qed.

Lemma link_edges_linked raw0 (d : gmap Z nat) ids :
  (∀ k i, d !! k = Some i → ids !! i = Some k) → no_reversed raw0 →
  ∀ raw k (vs : list Vertex) es vs' es',
    (∀ p, p ∈ raw → p ∈ raw0) → id <$> vs = ids → k = length es →
    linked_so_far raw0 vs es →
    link_edges d raw k vs es = Ok (vs', es') →
    id <$> vs' = ids ∧ linked_so_far raw0 vs' es'.
Proof.
  intros Hd Hrev raw.
  induction raw as [|[l r] raw IH]; intros k vs es vs' es' Hsub Hids Hk Hinv; simpl.
  { by intros [= <- <-]. }
  unfold dict_get.
  destruct (d !! l) as [lv|] eqn:Hl; cbn; [|done].
  destruct (d !! r) as [rv|] eqn:Hr; cbn; [|done].
  subst k. apply IH.
  - intros p Hp. apply Hsub. by right.
  - by rewrite !ids_alter_add_edge.
  - rewrite length_app. simpl. lia.
  - apply link_step; [done..|by apply Hsub; left| |].
    + rewrite <- list_lookup_fmap, Hids. by apply Hd.
    + rewrite <- list_lookup_fmap, Hids. by apply Hd.
Qed.

Lemma ids_fresh_vertices (ids : list Z) : id <$> fresh_vertices ids = ids.
Proof.
  unfold fresh_vertices. induction ids as [|i ids IH]; [done|].
  rewrite !fmap_cons. by rewrite IH.
Qed.

(** [Graph.__init__] on fresh vertices with distinct ids and a simple edge
    list returns a well-linked graph. *)
Lemma Graph_init_well_linked (ids : list Z) (raw : list (Z * Z)) (g : Graph) :
  NoDup ids → no_reversed raw →
  Graph_init (fresh_vertices ids) raw = Ok g →
  well_linked (vertices g) (graph_edges g) ∧ id <$> vertices g = ids.
Proof.
  intros Hnd Hrev. unfold Graph_init.
  destruct (link_edges _ _ _ _ _) as [[vs es]|] eqn:Hlink; cbn; [|done].
  intros [= <-]. simpl.
  pose proof (ids_fresh_vertices ids) as Hfresh.
  destruct (link_edges_linked raw (build_vertex_dict (fresh_vertices ids) 0 ∅) ids)
    with (raw := raw) (k := O) (vs := fresh_vertices ids) (es := @nil Edge)
         (vs' := vs) (es' := es) as [Hids Hinv]; try done.
  - intros k i [(j & -> & Hj)|Hd]%build_vertex_dict_lookup; [|done].
    by rewrite Hfresh in Hj.
  - split; try done.
    + intros i v Hv. unfold fresh_vertices in Hv.
      rewrite list_lookup_fmap in Hv. by apply fmap_Some in Hv as (? & _ & ->).
    + intros e He. by apply elem_of_nil in He.
    + intros e He. by apply elem_of_nil in He.
    + intros e He. by apply elem_of_nil in He.
  - split; [|done]. split.
    + by rewrite Hids.
    + apply NoDup_alt. intros i j x Hi Hj.
      rewrite list_lookup_fmap in Hi, Hj.
      apply fmap_Some in Hi as (e & He & ->).
      apply fmap_Some in Hj as (e' & He' & Heq).
      apply (lsf_eids _ _ _ Hinv) in He, He'. congruence.
    + apply (lsf_adjacency _ _ _ Hinv).
    + apply (lsf_left _ _ _ Hinv).
    + apply (lsf_right _ _ _ Hinv).
    + intros e He Hloop.
      pose proof (lsf_left _ _ _ Hinv e He) as Hl.
      pose proof (lsf_right _ _ _ Hinv e He) as Hr.
      rewrite Hloop, Hr in Hl. injection Hl as Hl.
      pose proof (lsf_origin _ _ _ Hinv e He) as Ho.
      rewrite <- Hl in Ho. by apply (Hrev _ _ Ho).
Qed.

(** ** [read_netlist] feeds [Graph.__init__] fresh vertices with distinct ids *)

Lemma fresh_vertices_snoc (ids : list Z) k :
  fresh_vertices ids ++ [Vertex_init k] = fresh_vertices (ids ++ [k]).
Proof. unfold fresh_vertices. by rewrite fmap_app. Qed.

Lemma read_lines_fresh (lines : list (Z * Z)) : ∀ es ids (seen : gset Z),
  NoDup ids → (∀ k, k ∈ seen ↔ k ∈ ids) →
  ∃ ids', read_lines lines es (fresh_vertices ids) seen
          = (fresh_vertices ids', es ++ lines)
          ∧ NoDup ids'.
Proof.
  induction lines as [|[l r] lines IH]; intros es ids seen Hnd Hseen; simpl.
  { exists ids. by rewrite app_nil_r. }
  assert (Hstep : ∀ k ids0 (seen0 : gset Z),
            NoDup ids0 → (∀ j, j ∈ seen0 ↔ j ∈ ids0) →
            ∃ ids1, (if bool_decide (k ∉ seen0)
                     then (fresh_vertices ids0 ++ [Vertex_init k], {[k]} ∪ seen0)
                     else (fresh_vertices ids0, seen0))
                    = (fresh_vertices ids1,
                       if bool_decide (k ∉ seen0) then {[k]} ∪ seen0 else seen0)
                    ∧ NoDup ids1
                    ∧ ∀ j, j ∈ (if bool_decide (k ∉ seen0)
                                then {[k]} ∪ seen0 else seen0) ↔ j ∈ ids1).
  { intros k ids0 seen0 Hnd0 Hseen0. case_bool_decide as Hk.
    - exists (ids0 ++ [k]). rewrite fresh_vertices_snoc. split; [done|]. split.
      + apply NoDup_app. split; [done|]. split; [|apply NoDup_singleton].
        intros j Hj ->%list_elem_of_singleton. by apply Hk, Hseen0.
      + intros j. rewrite elem_of_union, elem_of_singleton, elem_of_app,
          list_elem_of_singleton, Hseen0. tauto.
    - by exists ids0. }
  destruct (Hstep l ids seen Hnd Hseen) as (ids1 & -> & Hnd1 & Hseen1).
  destruct (Hstep r ids1 _ Hnd1 Hseen1) as (ids2 & -> & Hnd2 & Hseen2).
  destruct (IH (es ++ [(l, r)]) ids2 _ Hnd2 Hseen2) as (ids' & -> & Hnd').
  exists ids'. by rewrite <- app_assoc.
Qed.

(** [read_netlist] calls [Graph.__init__] on fresh vertices with distinct
    ids and on the lines as they are. *)
Lemma read_netlist_Graph_init (lines : list (Z * Z)) :
  ∃ ids, NoDup ids ∧ read_netlist lines = Graph_init (fresh_vertices ids) lines.
Proof.
  unfold read_netlist.
  destruct (read_lines_fresh lines [] [] ∅) as (ids & Heq & Hnd).
  { apply NoDup_nil_2. }
  { intros k. rewrite elem_of_nil. set_solver. }
  change (@nil Vertex) with (fresh_vertices []). rewrite Heq.
  by exists ids.
Qed.

(** ** Runs on simple graphs with an even number of vertices *)

Lemma bisected_all_labelled (vs : list Vertex) :
  Nat.Even (length vs) →
  all_labelled (imap (bisected 0 (length vs / 2) (length vs / 2)) vs).
Proof.
  intros [k Hk] v Hv. apply elem_of_lookup_imap in Hv as (j & w & -> & Hw).
  apply lookup_lt_Some in Hw.
  assert (Hh : (length vs / 2 = k)%nat).
  { rewrite Hk, Nat.mul_comm. by apply Nat.div_mul. }
  rewrite Hh. unfold bisected. repeat case_decide; try done. lia.
Qed.

Lemma run_state_invariant (g : Graph) (st : locals) :
  well_linked (vertices g) (graph_edges g) →
  Nat.Even (length (vertices g)) →
  run_state g st →
  well_linked (l_vertices st) (graph_edges g) ∧ all_labelled (l_vertices st).
Proof.
  intros Hwl Hev Hrun. induction Hrun as [vs0 Hsplit|st st' _ [IH1 IH2] Hit].
  - rewrite initial_split_eq in Hsplit. injection Hsplit as <-. simpl. split.
    + eapply well_linked_shape; [|exact Hwl]. by rewrite shape_bisected.
    + by apply bisected_all_labelled.
  - by destruct (accepted_swap_cost_change true g st st' IH1 IH2 Hit)
      as (_ & _ & ? & ?).
Qed.

Lemma even_simple_run_invariant (ids : list Z) (raw : list (Z * Z))
    (g : Graph) (st : locals) :
  NoDup ids → no_reversed raw → Nat.Even (length ids) →
  Graph_init (fresh_vertices ids) raw = Ok g →
  run_state g st →
  well_linked (l_vertices st) (graph_edges g) ∧ all_labelled (l_vertices st).
Proof.
  intros Hnd Hrev Hev Hg Hrun.
  destruct (Graph_init_well_linked ids raw g Hnd Hrev Hg) as [Hwl Hids].
  assert (Hev' : Nat.Even (length (vertices g))).
  { by rewrite <- (length_fmap id), Hids. }
  by apply run_state_invariant.
Qed.

(** X15: On a graph built from distinct vertex ids and a simple edge list, with
    an even number of vertices, the gain of every accepted swap is the
    drop of the cut cost. *)
Theorem accepted_gain_is_cost_drop (ids : list Z) (raw : list (Z * Z))
    (g : Graph) (st st' : locals) :
  NoDup ids → no_reversed raw → Nat.Even (length ids) →
  Graph_init (fresh_vertices ids) raw = Ok g →
  run_state g st →
  outer_iteration true st = Ok (Continue, st') →
  cost_in g st - cost_in g st' = total_gain st' - total_gain st
  ∧ 0 < total_gain st' - total_gain st.
Proof.
  intros Hnd Hrev Hev Hg Hrun Hit.
  destruct (even_simple_run_invariant ids raw g st Hnd Hrev Hev Hg Hrun)
    as [Hwl' Hlab].
  by destruct (accepted_swap_cost_change true g st st' Hwl' Hlab Hit)
    as (? & ? & _).
Qed.

(** X16: Under the same conditions no pass through the loop body raises the cut
    cost. *)
Theorem cost_never_rises_on_even_simple (ids : list Z) (raw : list (Z * Z))
    (g : Graph) (st st' : locals) (c : control) :
  NoDup ids → no_reversed raw → Nat.Even (length ids) →
  Graph_init (fresh_vertices ids) raw = Ok g →
  run_state g st →
  outer_iteration true st = Ok (c, st') →
  cost_in g st' ≤ cost_in g st.
Proof.
  intros Hnd Hrev Hev Hg Hrun Hit. destruct c.
  - destruct (even_simple_run_invariant ids raw g st Hnd Hrev Hev Hg Hrun)
      as [Hwl' Hlab].
    destruct (accepted_swap_cost_change true g st st' Hwl' Hlab Hit)
      as (? & ? & _).
    lia.
  - destruct (break_keeps_labels true st st' Hit) as [Hvs _].
    unfold cost_in. rewrite Hvs. lia.
Qed.

(** ** Group sizes *)

Lemma length_group_ids l (g : Graph) :
  length (group_ids l g) = count_label l (vertices g).
Proof. unfold group_ids, count_label. by rewrite length_fmap. Qed.

(** The initial bisection, as three segments of the vertex list: the first
    [h] vertices get A, the next [h] get B, the rest keep their label. *)
Lemma bisected_segments h (vs : list Vertex) :
  (2 * h ≤ length vs)%nat →
  imap (bisected 0 h h) vs
  = (set_label LabelA <$> take h vs)
    ++ (set_label LabelB <$> take h (drop h vs))
    ++ drop (2 * h) vs.
Proof.
  intros Hlen. apply list_eq. intros j. rewrite list_lookup_imap.
  destruct (decide (j < h)%nat) as [Hj|Hj].
  { rewrite lookup_app_l by (rewrite length_fmap, length_take; lia).
    rewrite list_lookup_fmap, lookup_take_lt by done.
    destruct (vs !! j); [|done]. simpl. f_equal.
    unfold bisected. case_decide; [done|lia]. }
  rewrite lookup_app_r by (rewrite length_fmap, length_take; lia).
  rewrite length_fmap, length_take, Nat.min_l by lia.
  destruct (decide (j < 2 * h)%nat) as [Hj'|Hj'].
  { rewrite lookup_app_l by (rewrite length_fmap, length_take, length_drop; lia).
    rewrite list_lookup_fmap, lookup_take_lt, lookup_drop by lia.
    replace (h + (j - h))%nat with j by lia.
    destruct (vs !! j); [|done]. simpl. f_equal.
    unfold bisected. repeat case_decide; try lia; done. }
  rewrite lookup_app_r by (rewrite length_fmap, length_take, length_drop; lia).
  rewrite length_fmap, length_take, length_drop, Nat.min_l by lia.
  rewrite lookup_drop. replace (2 * h + (j - h - h))%nat with j by lia.
  destruct (vs !! j); [|done]. simpl. f_equal.
  unfold bisected. repeat case_decide; try lia; done.
Qed.

Lemma count_label_set_label l l' (vs : list Vertex) :
  count_label l (set_label l' <$> vs)
  = if decide (l' = l) then length vs else O.
Proof.
  unfold count_label. induction vs as [|v vs IH].
  { by case_decide. }
  rewrite fmap_cons, filter_cons.
  destruct (decide (partition_label (set_label l' v) = Some l)) as [H|H];
    simpl in H; rewrite ?length_cons, IH;
    case_decide; simpl; congruence.
Qed.

Lemma count_label_app l (vs1 vs2 : list Vertex) :
  count_label l (vs1 ++ vs2) = (count_label l vs1 + count_label l vs2)%nat.
Proof. unfold count_label. by rewrite filter_app, length_app. Qed.

Lemma count_label_unlabelled l (vs : list Vertex) :
  (∀ v, v ∈ vs → partition_label v = None) → count_label l vs = O.
Proof.
  unfold count_label. induction vs as [|v vs IH]; intros Hn; [done|].
  rewrite filter_cons. rewrite decide_False.
  - apply IH. intros w Hw. apply Hn. by right.
  - rewrite (Hn v) by left. done.
Qed.

(** After the initial bisection of vertices that carry no label yet, each
    group has ⌊n/2⌋ members. *)
Lemma count_label_bisected l (vs : list Vertex) :
  (∀ v, v ∈ vs → partition_label v = None) →
  count_label l (imap (bisected 0 (length vs / 2) (length vs / 2)) vs)
  = (length vs / 2)%nat.
Proof.
  intros Hn. pose proof (Nat.Div0.mul_div_le (length vs) 2) as Hle.
  set (h := (length vs / 2)%nat) in *.
  rewrite bisected_segments by done.
  rewrite !count_label_app, !count_label_set_label.
  rewrite (count_label_unlabelled l (drop (2 * h) vs)).
  - rewrite !length_take, length_drop. destruct l; repeat case_decide; try done; lia.
  - intros v Hv. apply Hn. by eapply subseteq_drop.
Qed.

Lemma length_filter_alter {X} (P : X → Prop) `{!∀ x, Decision (P x)}
    (f : X → X) (l : list X) : ∀ i x,
  l !! i = Some x →
  (length (filter P (alter f i l)) + (if decide (P x) then 1 else 0)
   = length (filter P l) + (if decide (P (f x)) then 1 else 0))%nat.
Proof.
  induction l as [|y l IH]; intros [|i] x Hx; try done.
  - injection Hx as ->. change (alter f 0%nat (x :: l)) with (f x :: l).
    rewrite !filter_cons. repeat case_decide; cbn [length]; lia.
  - change (alter f (S i) (y :: l)) with (y :: alter f i l).
    rewrite !filter_cons. specialize (IH i x Hx).
    repeat case_decide; cbn [length]; lia.
Qed.

(** A swap keeps the size of both groups. *)
Lemma count_label_swap l (vs : list Vertex) a b :
  a ∈ select_group LabelA vs → b ∈ select_group LabelB vs →
  count_label l (swap_labels a.1 b.1 vs) = count_label l vs.
Proof.
  intros Ha Hb. pose proof (select_group_disjoint vs a b Ha Hb) as Hne.
  destruct a as [ia va], b as [ib vb]. simpl in *.
  apply elem_of_select_group in Ha as [Ha HlA].
  apply elem_of_select_group in Hb as [Hb HlB].
  unfold count_label, swap_labels.
  pose proof (length_filter_alter (fun v => partition_label v = Some l)
                (set_label LabelB) vs ia va Ha) as H1.
  pose proof (length_filter_alter (fun v => partition_label v = Some l)
                (set_label LabelA) (alter (set_label LabelB) ia vs) ib vb) as H2.
  rewrite list_lookup_alter_ne in H2 by done. specialize (H2 Hb).
  simpl in H1, H2. rewrite HlA in H1. rewrite HlB in H2.
  destruct l; repeat case_decide; try congruence; lia.
Qed.

Lemma outer_loop_count_label incremental l n : ∀ st st',
  outer_loop incremental n st = Ok st' →
  count_label l (l_vertices st') = count_label l (l_vertices st).
Proof.
  induction n as [|n IH]; intros st st'; simpl.
  { by intros [= <-]. }
  destruct (outer_iteration incremental st) as [[c st1]|] eqn:Hit; cbn; [|done].
  destruct (outer_iteration_inhabited _ _ _ _ Hit) as [HA HB].
  destruct (outer_iteration_spec incremental st HA HB)
    as (a & b & mg & Hbest & [[_ Hbr]|[_ [D' Hco]]]).
  - rewrite Hbr in Hit. injection Hit as <- <-. by intros [= <-].
  - rewrite Hco in Hit. injection Hit as <- <-. intros Hloop.
    rewrite (IH _ _ Hloop). simpl.
    apply best_candidate_in in Hbest as (Ha & Hb & _).
    by apply count_label_swap.
Qed.

(** X14: For every graph whose vertices carry no label on entry, [partition]
    returns two groups of ⌊n/2⌋ ids each: all vertices are returned when n
    is even, and all but one when n is odd. *)
Theorem partition_group_sizes (g : Graph) :
  (∀ v, v ∈ vertices g → partition_label v = None) →
  ∃ cutset group_a group_b,
    partition g = Ok (cutset, group_a, group_b)
    ∧ length group_a = (length (vertices g) / 2)%nat
    ∧ length group_b = (length (vertices g) / 2)%nat.
Proof.
  intros Hn.
  unfold partition, partition_with, partition_run. rewrite initial_split_eq.
  set (h := (length (vertices g) / 2)%nat).
  set (vs0 := imap (bisected 0 h h) (vertices g)).
  destruct (outer_loop_returns true h (initial_locals vs0)) as (st & Hloop & _).
  { destruct (decide (h = O)) as [|Hh]; [by left|right].
    apply bisected_inhabited. fold h. lia. }
  unfold mbind, result_bind. rewrite Hloop. unfold partition_result.
  do 3 eexists. split; [done|].
  rewrite !length_group_ids. simpl.
  rewrite !(outer_loop_count_label true _ h _ _ Hloop). simpl.
  split; by apply count_label_bisected.
Qed.

(** ** Scenario A: the 4-cycle *)

(** C1 (as stated, refuted): on the 4-cycle [partition] does not return a
    cut of 0. *)
Lemma cycle4_final_cut_not_zero :
  ¬ ∃ g group_a group_b,
      cycle4 = Ok g ∧ partition g = Ok ("0"%string, group_a, group_b).
Proof.
  intros (g & ga & gb & Hg & Hp).
  vm_compute in Hg. injection Hg as <-.
  vm_compute in Hp. discriminate Hp.
Qed.

(** C1 (amended): on the 4-cycle with vertices 1,2,3,4 the initial split is
    A = [1;2], B = [3;4] with cut cost 2; in the first outer iteration the
    sorted gains are 0, 0, -2, -2, so the best gain [gains[0][1]] is 0 (pair
    (1,3)); the loop stops there without a swap, and [partition] returns cut
    "2" with the groups unchanged. *)
Theorem cycle4_partition :
  ∃ g vs0 st,
    cycle4 = Ok g
    ∧ initial_split g = Ok vs0
    ∧ group_ids LabelA (relabel g vs0) = [1; 2]
    ∧ group_ids LabelB (relabel g vs0) = [3; 4]
    ∧ get_partition_cost (relabel g vs0) = 2
    ∧ (gains ← compute_gains (compute_D_values vs0)
                 (select_group LabelA vs0) (select_group LabelB vs0);
       Ok ((fun c : candidate => (id c.1.1.2, id c.1.2.2, c.2))
             <$> sorted_reverse gains))
      = Ok [(1, 3, 0); (2, 4, 0); (1, 4, -2); (2, 3, -2)]
    ∧ outer_iteration true (initial_locals vs0) = Ok (Break, st)
    ∧ l_vertices st = vs0
    ∧ total_gain st = 0
    ∧ partition g = Ok ("2"%string, [1; 2], [3; 4]).
Proof.
  do 3 eexists.
  split; [vm_compute; reflexivity|].
  split; [vm_compute; reflexivity|].
  split; [vm_compute; reflexivity|].
  split; [vm_compute; reflexivity|].
  split; [vm_compute; reflexivity|].
  split; [vm_compute; reflexivity|].
  split; [vm_compute; reflexivity|].
  split; [vm_compute; reflexivity|].
  split; vm_compute; reflexivity.
Qed.

(** ** The 4-cycle has no balanced split of cut 0 *)

(** Whatever labels the four vertices of the 4-cycle carry, the cut is 0
    only when all four are on the same side; in particular the split
    A = {1,4}, B = {2,3} cuts two edges. *)
Lemma cycle4_zero_cut_is_one_sided (l1 l2 l3 l4 : Label) :
  (g ← cycle4;
   Ok (get_partition_cost (relabel g (with_labels [l1; l2; l3; l4] (vertices g)))))
  = Ok 0 →
  l1 = l2 ∧ l2 = l3 ∧ l3 = l4.
Proof.
  destruct l1, l2, l3, l4; vm_compute; intros H; (done || discriminate H).
Qed.

Example cycle4_split_14_23 :
  (g ← cycle4;
   Ok (get_partition_cost
         (relabel g (with_labels [LabelA; LabelB; LabelB; LabelA] (vertices g)))))
  = Ok 2.
Proof. vm_compute. reflexivity. Qed.

(** ** Concrete runs *)


(** On [crossed4] the candidates (1,4) and (2,3) tie at gain 2 and the
    earlier one, (1,4), is swapped. *)
Example crossed4_tie :
  (fun c : candidate => (id c.1.1.2, id c.1.2.2, c.2))
    <$> best_candidate (l_vertices (entry_state crossed4)) = Some (1, 4, 2)
  ∧ (g ← crossed4; partition g) = Ok ("0"%string, [2; 4], [1; 3]).
Proof. split; vm_compute; reflexivity. Qed.

(** On [crossed4] the accepted swap has gain 2 and the cut is 2 before and
    0 after it. *)
Example crossed4_costs :
  let st := entry_state crossed4 in
  cost_of crossed4 st = Ok 2 ∧ cost_of crossed4 (next_state st) = Ok 0
  ∧ total_gain (next_state st) = 2.
Proof. repeat split; vm_compute; reflexivity. Qed.

(** C3 (the code at the input "1 2 / 1 2"): [add_edge] only rejects an edge
    whose endpoint ids are the reverse of an incident edge's, so the repeated
    line is not collapsed: both vertices carry two distinct [Edge] objects
    (identities 0 and 1) between vertex 1 and vertex 2, and the cut counts
    both. *)
Theorem same_orientation_duplicate_kept :
  ∃ g,
    doubled_edge = Ok g
    ∧ (fun v => (fun e => (eid e, left_id e, right_id e)) <$> edges v)
        <$> vertices g
      = [[(0%nat, 1, 2); (1%nat, 1, 2)]; [(0%nat, 1, 2); (1%nat, 1, 2)]]
    ∧ length (graph_edges g) = 2%nat
    ∧ partition g = Ok ("2"%string, [1], [2]).
Proof.
  eexists. split; [vm_compute; reflexivity|].
  repeat split; vm_compute; reflexivity.
Qed.

(** C2 (the code at the input "1 2 / 2 3"): with three vertices the initial
    bisection labels vertex 1 with A and vertex 2 with B and leaves vertex 3
    unlabelled; it is still unlabelled at the end and belongs to neither
    returned group. *)
Theorem odd_vertex_left_unassigned :
  labels (entry_state path3) = [Some LabelA; Some LabelB; None]
  ∧ final_labels path3 = Ok [Some LabelB; Some LabelA; None]
  ∧ (g ← path3; partition g) = Ok ("2"%string, [2], [1]).
Proof. repeat split; vm_compute; reflexivity. Qed.

(** C4 (the code at the input "1 2 / 1 3"): the first iteration accepts the
    swap of vertices 1 and 2 with gain 1, and the cut is 2 before and 2
    after the swap. *)
Theorem gain_differs_from_cost_change :
  let st := entry_state star3 in
  (fun c : candidate => (id c.1.1.2, id c.1.2.2, c.2))
    <$> best_candidate (l_vertices st) = Some (1, 2, 1)
  ∧ outer_iteration true st = Ok (Continue, next_state st)
  ∧ total_gain (next_state st) - total_gain st = 1
  ∧ cost_of star3 st = Ok 2
  ∧ cost_of star3 (next_state st) = Ok 2.
Proof. repeat split; vm_compute; reflexivity. Qed.

(** C5 (the code at the input "1 2 / 1 3 / 2 4 / 2 5 / 3 5"): both outer
    iterations swap, and the cut is 4 on entry, 3 after the first iteration
    and 4 after the second. *)
Theorem cost_increases_between_iterations :
  let st0 := entry_state house5 in
  let st1 := next_state st0 in
  let st2 := next_state st1 in
  outer_iteration true st0 = Ok (Continue, st1)
  ∧ outer_iteration true st1 = Ok (Continue, st2)
  ∧ cost_of house5 st0 = Ok 4
  ∧ cost_of house5 st1 = Ok 3
  ∧ cost_of house5 st2 = Ok 4
  ∧ (g ← house5; partition g) = Ok ("4"%string, [1; 2], [3; 4]).
Proof. repeat split; vm_compute; reflexivity. Qed.

(** ** Reversed duplicates *)

(** An edge whose endpoint ids are the reverse of an incident edge's is not
    appended: this is the only case that [add_edge] collapses. *)
Lemma add_edge_reversed_rejected (self : Vertex) (e edge : Edge) :
  e ∈ edges self → left_id e = right_id edge → right_id e = left_id edge →
  add_edge self edge = self.
Proof.
  intros He Hl Hr. unfold add_edge.
  destruct (existsb _ _) eqn:Hex; [done|]. exfalso.
  assert (Htrue : existsb (fun e0 => bool_decide (left_id e0 = right_id edge)
                    && bool_decide (right_id e0 = left_id edge)) (edges self) = true).
  { apply existsb_exists. exists e. split; [by apply list_elem_of_In|].
    by rewrite !bool_decide_eq_true_2. }
  congruence.
Qed.

Example reversed_duplicate_collapsed :
  (g ← read_netlist [(1, 2); (2, 1)];
   Ok ((fun v => eid <$> edges v) <$> vertices g, length (graph_edges g)))
  = Ok ([[0%nat]; [0%nat]], 2%nat).
Proof. vm_compute. reflexivity. Qed.

(** * Further properties of the graph model *)

(** ** When [Graph.__init__] returns *)

Lemma link_edges_known (d : gmap Z nat) (raw : list (Z * Z)) : ∀ k vs es,
  (∀ l r, (l, r) ∈ raw → is_Some (d !! l) ∧ is_Some (d !! r)) →
  ∃ res, link_edges d raw k vs es = Ok res.
Proof.
  induction raw as [|[l r] raw IH]; intros k vs es Hknown; simpl.
  { by eexists. }
  destruct (Hknown l r) as [[lv Hl] [rv Hr]]; [left|].
  unfold dict_get. rewrite Hl, Hr. cbn.
  apply IH. intros l' r' Hin. apply Hknown. by right.
Qed.

Lemma link_edges_Ok_known (d : gmap Z nat) (raw : list (Z * Z)) k vs es res l r :
  link_edges d raw k vs es = Ok res → (l, r) ∈ raw →
  is_Some (d !! l) ∧ is_Some (d !! r).
Proof.
  intros Hok Hin.
  destruct (d !! l) as [lv|] eqn:Hl; [destruct (d !! r) as [rv|] eqn:Hr|].
  - done.
  - destruct (link_edges_unknown d raw l r Hin (or_intror Hr) k vs es)
      as (x & Hx & _). congruence.
  - destruct (link_edges_unknown d raw l r Hin (or_introl Hl) k vs es)
      as (x & Hx & _). congruence.
Qed.

Lemma build_vertex_dict_known (vs : list Vertex) k :
  is_Some (build_vertex_dict vs 0 ∅ !! k) ↔ k ∈ id <$> vs.
Proof.
  rewrite build_vertex_dict_is_Some, lookup_empty, is_Some_alt. naive_solver.
Qed.

(** X1: [Graph.__init__] returns a graph exactly when both ids of every edge
    are ids of vertices of the list. *)
Theorem Graph_init_returns_iff (vs : list Vertex) (raw : list (Z * Z)) :
  (∃ g, Graph_init vs raw = Ok g)
  ↔ ∀ l r, (l, r) ∈ raw → l ∈ id <$> vs ∧ r ∈ id <$> vs.
Proof.
  unfold Graph_init. split.
  - intros [g Hg] l r Hin.
    destruct (link_edges _ _ _ _ _) as [res|] eqn:Hlink; [|done].
    rewrite <- !build_vertex_dict_known.
    by eapply link_edges_Ok_known.
  - intros Hknown.
    destruct (link_edges_known (build_vertex_dict vs 0 ∅) raw 0 vs [])
      as [[vs' es] ->].
    + intros l r Hin. rewrite !build_vertex_dict_known. by apply Hknown.
    + by eexists.
Qed.

Lemma partition_label_add_edge v edge :
  partition_label (add_edge v edge) = partition_label v.
Proof. unfold add_edge. by destruct (existsb _ _). Qed.

Lemma labels_alter_add_edge edge i (vs : list Vertex) :
  partition_label <$> alter (fun v => add_edge v edge) i vs
  = partition_label <$> vs.
Proof.
  apply list_eq. intros j. rewrite !list_lookup_fmap, list_lookup_alter.
  case_decide; subst; [|done].
  destruct (vs !! j); simpl; [|done]. by rewrite partition_label_add_edge.
Qed.

(** What the loop of [Graph.__init__] leaves alone and what it creates. *)
Lemma link_edges_frame (d : gmap Z nat) (raw : list (Z * Z)) :
  ∀ k (vs : list Vertex) es vs' es',
    link_edges d raw k vs es = Ok (vs', es') →
    id <$> vs' = id <$> vs
    ∧ partition_label <$> vs' = partition_label <$> vs
    ∧ ∃ new, es' = es ++ new
             ∧ edge_ids <$> new = raw
             ∧ eid <$> new = seq k (length raw)
             ∧ Forall (fun e => d !! left_id e = Some (left_v e)
                                ∧ d !! right_id e = Some (right_v e)) new.
Proof.
  induction raw as [|[l r] raw IH]; intros k vs es vs' es'; simpl.
  { intros [= <- <-]. do 2 (split; [done|]). exists []. by rewrite app_nil_r. }
  unfold dict_get.
  destruct (d !! l) as [lv|] eqn:Hl; cbn; [|done].
  destruct (d !! r) as [rv|] eqn:Hr; cbn; [|done].
  intros (Hids & Hlabs & new & -> & Hraw & Heid & Hd)%IH.
  rewrite !ids_alter_add_edge in Hids. rewrite !labels_alter_add_edge in Hlabs.
  do 2 (split; [done|]).
  exists (mkEdge k l r lv rv :: new). split; [by rewrite <- app_assoc|].
  split; [by rewrite fmap_cons, Hraw|].
  split; [by rewrite fmap_cons, Heid|].
  by constructor.
Qed.

(** X2: On return from [Graph.__init__] the vertices keep their ids and labels,
    there is one [Edge] per input pair, in input order and with the ids it
    was created with, and both ends of every edge refer to vertices that
    carry the edge's ids. *)
Theorem Graph_init_links (vs : list Vertex) (raw : list (Z * Z)) (g : Graph) :
  Graph_init vs raw = Ok g →
  id <$> vertices g = id <$> vs
  ∧ partition_label <$> vertices g = partition_label <$> vs
  ∧ edge_ids <$> graph_edges g = raw
  ∧ eid <$> graph_edges g = seq 0 (length raw)
  ∧ ∀ e, e ∈ graph_edges g →
      id <$> vertices g !! left_v e = Some (left_id e)
      ∧ id <$> vertices g !! right_v e = Some (right_id e).
Proof.
  unfold Graph_init.
  destruct (link_edges _ _ _ _ _) as [[vs' es]|] eqn:Hlink; cbn; [|done].
  intros [= <-]. simpl.
  apply link_edges_frame in Hlink
    as (Hids & Hlabs & new & -> & Hraw & Heid & Hd).
  simpl in *. do 4 (split; [done|]).
  intros e He. rewrite Forall_forall in Hd. destruct (Hd e He) as [Hl Hr].
  rewrite <- !list_lookup_fmap, Hids.
  apply build_vertex_dict_lookup in Hl as [(j & -> & Hj)|Hl]; [|done].
  apply build_vertex_dict_lookup in Hr as [(j' & -> & Hj')|Hr]; [|done].
  done.
Qed.

(** The vertices 1,2,3 with the edges (1,2) and (3,1). *)
Lemma Graph_init_links_witness :
  let vs := fresh_vertices [1; 2; 3] in
  let raw := [(1, 2); (3, 1)] in
  let g := graph_of (Graph_init vs raw) in
  Graph_init vs raw = Ok g
  ∧ id <$> vertices g = id <$> vs
  ∧ partition_label <$> vertices g = partition_label <$> vs
  ∧ edge_ids <$> graph_edges g = raw
  ∧ eid <$> graph_edges g = seq 0 (length raw)
  ∧ ∀ e, e ∈ graph_edges g →
      id <$> vertices g !! left_v e = Some (left_id e)
      ∧ id <$> vertices g !! right_v e = Some (right_id e).
Proof.
  intros vs raw g.
  assert (H : Graph_init vs raw = Ok g) by (vm_compute; reflexivity).
  exact (conj H (Graph_init_links vs raw g H)).
Defined.

(** ** Adjacency lists *)

(** A property of single vertices that [add_edge] keeps is kept by the
    loop of [Graph.__init__]. *)
Lemma link_edges_Forall (P : Vertex → Prop) (d : gmap Z nat) (raw : list (Z * Z)) :
  (∀ v e, P v → P (add_edge v e)) →
  ∀ k (vs : list Vertex) es vs' es',
    Forall P vs → link_edges d raw k vs es = Ok (vs', es') → Forall P vs'.
Proof.
  intros HP. induction raw as [|[l r] raw IH]; intros k vs es vs' es' Hvs; simpl.
  { by intros [= <- <-]. }
  unfold dict_get.
  destruct (d !! l) as [lv|]; cbn; [|done].
  destruct (d !! r) as [rv|]; cbn; [|done].
  apply IH. apply Forall_alter; [|intros; by apply HP].
  apply Forall_alter; [done|intros; by apply HP].
Qed.

Lemma add_edge_reverse_free v edge :
  reverse_free (edges v) → reverse_free (edges (add_edge v edge)).
Proof.
  intros Hfree. unfold add_edge.
  destruct (existsb _ _) eqn:Hex; [done|]. simpl.
  assert (Hnone : ∀ e, e ∈ edges v →
            ¬ (left_id e = right_id edge ∧ right_id e = left_id edge)).
  { intros e He [H1 H2].
    assert (Htrue : existsb (fun e0 => bool_decide (left_id e0 = right_id edge)
                      && bool_decide (right_id e0 = left_id edge)) (edges v) = true).
    { apply existsb_exists. exists e. split; [by apply list_elem_of_In|].
      by rewrite !bool_decide_eq_true_2. }
    congruence. }
  intros i j e e' Hi Hj Hij.
  apply lookup_app_Some in Hi as [Hi|[Hleni Hi]];
    apply lookup_app_Some in Hj as [Hj|[Hlenj Hj]].
  - by eapply Hfree.
  - apply list_lookup_singleton_Some in Hj as [_ <-].
    apply Hnone. by eapply list_elem_of_lookup_2.
  - apply list_lookup_singleton_Some in Hi as [_ <-].
    intros [H1 H2]. eapply Hnone; [by eapply list_elem_of_lookup_2|done].
  - apply list_lookup_singleton_Some in Hi as [Hi _].
    apply list_lookup_singleton_Some in Hj as [Hj _]. lia.
Qed.

(** X3: Whatever the edge list, no adjacency list of a graph built from fresh
    vertices holds an edge together with an edge of the reversed ids (nor a
    self-loop twice): this is the invariant that the check of [add_edge]
    keeps. *)
Theorem Graph_init_reverse_free (ids : list Z) (raw : list (Z * Z)) (g : Graph) :
  Graph_init (fresh_vertices ids) raw = Ok g →
  ∀ v, v ∈ vertices g → reverse_free (edges v).
Proof.
  unfold Graph_init.
  destruct (link_edges _ _ _ _ _) as [[vs' es]|] eqn:Hlink; cbn; [|done].
  intros [= <-]. simpl. apply Forall_forall.
  eapply (link_edges_Forall (fun v => reverse_free (edges v))); [|..|exact Hlink].
  - intros v e. apply add_edge_reverse_free.
  - apply Forall_forall. intros v Hv. unfold fresh_vertices in Hv.
    apply list_elem_of_fmap in Hv as (k & -> & _). simpl.
    intros i j e e' Hi. by rewrite lookup_nil in Hi.
Qed.

(** Lines "1 2", "2 1", "1 2" and "3 3": the second is dropped from both
    adjacency lists, the third is kept, the self-loop is kept once. *)
Lemma Graph_init_reverse_free_witness :
  let ids := [1; 2; 3] in
  let raw := [(1, 2); (2, 1); (1, 2); (3, 3)] in
  let g := graph_of (Graph_init (fresh_vertices ids) raw) in
  Graph_init (fresh_vertices ids) raw = Ok g
  ∧ ∀ v, v ∈ vertices g → reverse_free (edges v).
Proof.
  intros ids raw g.
  assert (H : Graph_init (fresh_vertices ids) raw = Ok g) by (vm_compute; reflexivity).
  exact (conj H (Graph_init_reverse_free ids raw g H)).
Defined.

Lemma add_edge_self_loop_twice v edge :
  left_id edge = right_id edge → add_edge (add_edge v edge) edge = add_edge v edge.
Proof.
  intros Hloop. unfold add_edge at 2.
  destruct (existsb _ (edges v)) eqn:Hex.
  - unfold add_edge. by rewrite Hex.
  - unfold add_edge. simpl. rewrite existsb_app. simpl.
    rewrite (bool_decide_eq_true_2 _ Hloop).
    rewrite (bool_decide_eq_true_2 _ (eq_sym Hloop)). by rewrite Hex.
Qed.

Lemma add_edge_sublist v edge es (P : Edge → Prop) `{!∀ e, Decision (P e)} :
  P edge → edges v `sublist_of` filter P es →
  edges (add_edge v edge) `sublist_of` filter P (es ++ [edge]).
Proof.
  intros HP Hsub. rewrite filter_app, filter_cons, filter_nil.
  rewrite decide_True by done. unfold add_edge.
  destruct (existsb _ _); simpl.
  - by apply sublist_inserts_r.
  - by apply sublist_app.
Qed.

(** The invariant of the loop of [Graph.__init__] on any edge list. *)
Lemma link_edges_sublist (d : gmap Z nat) (raw : list (Z * Z)) :
  (∀ k k' i, d !! k = Some i → d !! k' = Some i → k = k') →
  ∀ k (vs : list Vertex) es vs' es',
    (∀ i v, vs !! i = Some v → edges v `sublist_of` filter (incident i) es) →
    link_edges d raw k vs es = Ok (vs', es') →
    ∀ i v, vs' !! i = Some v → edges v `sublist_of` filter (incident i) es'.
Proof.
  intros Hd. induction raw as [|[l r] raw IH]; intros k vs es vs' es' Hinv; simpl.
  { by intros [= <- <-]. }
  unfold dict_get.
  destruct (d !! l) as [lv|] eqn:Hl; cbn; [|done].
  destruct (d !! r) as [rv|] eqn:Hr; cbn; [|done].
  apply IH. intros i v Hv.
  set (edge := mkEdge k l r lv rv) in *.
  assert (Hother : ∀ w, edges w `sublist_of` filter (incident i) es →
            edges w `sublist_of` filter (incident i) (es ++ [edge])).
  { intros w Hw. rewrite filter_app. by apply sublist_inserts_r. }
  rewrite list_lookup_alter in Hv. case_decide as Hi.
  - subst i. apply fmap_Some in Hv as (w & Hw & ->).
    rewrite list_lookup_alter in Hw. case_decide as Hlr.
    + subst lv. apply fmap_Some in Hw as (u & Hu & ->).
      rewrite add_edge_self_loop_twice by (simpl; by eapply Hd).
      apply add_edge_sublist; [by right|by apply Hinv].
    + apply add_edge_sublist; [by right|by apply Hinv].
  - rewrite list_lookup_alter in Hv. case_decide as Hi'.
    + subst i. apply fmap_Some in Hv as (w & Hw & ->).
      apply add_edge_sublist; [by left|by apply Hinv].
    + apply Hother. by apply Hinv.
Qed.

Lemma build_vertex_dict_inj (vs : list Vertex) k k' i :
  build_vertex_dict vs 0 ∅ !! k = Some i →
  build_vertex_dict vs 0 ∅ !! k' = Some i → k = k'.
Proof.
  intros [(j & -> & Hj)|H]%build_vertex_dict_lookup
         [(j' & Heq & Hj')|H']%build_vertex_dict_lookup; try done.
  simpl in Heq. subst j'. congruence.
Qed.

(** X4: Whatever the edge list, every adjacency list of a graph built from
    fresh vertices holds only edges of the graph that are incident to its
    vertex, in input order, and holds no [Edge] object twice. *)
Theorem Graph_init_adjacency_sound (ids : list Z) (raw : list (Z * Z)) (g : Graph) :
  Graph_init (fresh_vertices ids) raw = Ok g →
  ∀ i v, vertices g !! i = Some v →
    edges v `sublist_of` filter (incident i) (graph_edges g)
    ∧ NoDup (eid <$> edges v).
Proof.
  intros Hg i v Hv.
  assert (Hsub : edges v `sublist_of` filter (incident i) (graph_edges g)).
  { revert Hg. unfold Graph_init.
    destruct (link_edges _ _ _ _ _) as [[vs' es]|] eqn:Hlink; cbn; [|done].
    intros [= <-]. simpl in *.
    eapply (link_edges_sublist _ raw (build_vertex_dict_inj _));
      [|exact Hlink|exact Hv].
    intros j w Hw. unfold fresh_vertices in Hw. rewrite list_lookup_fmap in Hw.
    by apply fmap_Some in Hw as (? & _ & ->). }
  split; [done|].
  assert (Heid : eid <$> graph_edges g = seq 0 (length raw)).
  { revert Hg. unfold Graph_init.
    destruct (link_edges _ _ _ _ _) as [[vs' es]|] eqn:Hlink; cbn; [|done].
    intros [= <-]. simpl.
    by apply link_edges_frame in Hlink as (_ & _ & new & -> & _ & ? & _). }
  eapply sublist_NoDup; [|apply fmap_sublist; etrans; [exact Hsub|apply sublist_filter]].
  rewrite Heid. apply NoDup_seq.
Qed.

Lemma Graph_init_adjacency_sound_witness :
  let ids := [1; 2; 3] in
  let raw := [(1, 2); (2, 1); (1, 2); (3, 3)] in
  let g := graph_of (Graph_init (fresh_vertices ids) raw) in
  Graph_init (fresh_vertices ids) raw = Ok g
  ∧ ∀ i v, vertices g !! i = Some v →
      edges v `sublist_of` filter (incident i) (graph_edges g)
      ∧ NoDup (eid <$> edges v).
Proof.
  intros ids raw g.
  assert (H : Graph_init (fresh_vertices ids) raw = Ok g) by (vm_compute; reflexivity).
  exact (conj H (Graph_init_adjacency_sound ids raw g H)).
Defined.

(** X5: When no pair of the edge list is the reverse of a pair of the list,
    every adjacency list of a graph built from fresh vertices is exactly
    the list of the graph's edges incident to its vertex, in input order. *)
Theorem Graph_init_adjacency_complete (ids : list Z) (raw : list (Z * Z))
    (g : Graph) :
  no_reversed raw →
  Graph_init (fresh_vertices ids) raw = Ok g →
  ∀ i v, vertices g !! i = Some v →
    edges v = filter (incident i) (graph_edges g).
Proof.
  intros Hrev. unfold Graph_init.
  destruct (link_edges _ _ _ _ _) as [[vs es]|] eqn:Hlink; cbn; [|done].
  intros [= <-]. simpl.
  pose proof (ids_fresh_vertices ids) as Hfresh.
  destruct (link_edges_linked raw (build_vertex_dict (fresh_vertices ids) 0 ∅) ids)
    with (raw := raw) (k := O) (vs := fresh_vertices ids) (es := @nil Edge)
         (vs' := vs) (es' := es) as [_ Hinv]; try done.
  - intros k i [(j & -> & Hj)|Hd]%build_vertex_dict_lookup; [|done].
    by rewrite Hfresh in Hj.
  - split; try done.
    + intros i v Hv. unfold fresh_vertices in Hv.
      rewrite list_lookup_fmap in Hv. by apply fmap_Some in Hv as (? & _ & ->).
    + intros e He. by apply elem_of_nil in He.
    + intros e He. by apply elem_of_nil in He.
    + intros e He. by apply elem_of_nil in He.
  - apply (lsf_adjacency _ _ _ Hinv).
Qed.

(** The triangle 1-2, 2-3, 3-1 with the edge 1-2 given twice. *)
Lemma Graph_init_adjacency_complete_witness :
  let ids := [1; 2; 3] in
  let raw := [(1, 2); (2, 3); (1, 2); (3, 1)] in
  let g := graph_of (Graph_init (fresh_vertices ids) raw) in
  no_reversed raw
  ∧ Graph_init (fresh_vertices ids) raw = Ok g
  ∧ ∀ i v, vertices g !! i = Some v →
      edges v = filter (incident i) (graph_edges g).
Proof.
  intros ids raw g.
  assert (Hrev : no_reversed raw).
  { intros l r Hin Hrev. subst raw.
    repeat (apply elem_of_cons in Hin as [Hin|Hin]; [injection Hin as -> ->|]);
      [..|by apply elem_of_nil in Hin];
      repeat (apply elem_of_cons in Hrev as [Hrev|Hrev]; [discriminate Hrev|]);
      by apply elem_of_nil in Hrev. }
  assert (H : Graph_init (fresh_vertices ids) raw = Ok g) by (vm_compute; reflexivity).
  exact (conj Hrev (conj H (Graph_init_adjacency_complete ids raw g Hrev H))).
Defined.

(** ** [read_netlist] *)

Lemma first_seen_step_NoDup acc k : NoDup acc → NoDup (first_seen_step acc k).
Proof.
  intros Hnd. unfold first_seen_step. case_decide; [done|].
  apply NoDup_app. split; [done|]. split; [|apply NoDup_singleton].
  by intros j Hj ->%list_elem_of_singleton.
Qed.

Lemma elem_of_first_seen_step acc k j :
  j ∈ first_seen_step acc k ↔ j ∈ acc ∨ j = k.
Proof.
  unfold first_seen_step. case_decide.
  - naive_solver.
  - by rewrite elem_of_app, list_elem_of_singleton.
Qed.

Lemma foldl_first_seen_NoDup ks : ∀ acc,
  NoDup acc → NoDup (foldl first_seen_step acc ks).
Proof.
  induction ks as [|k ks IH]; intros acc Hnd; simpl; [done|].
  by apply IH, first_seen_step_NoDup.
Qed.

Lemma elem_of_foldl_first_seen ks : ∀ acc j,
  j ∈ foldl first_seen_step acc ks ↔ j ∈ acc ∨ j ∈ ks.
Proof.
  induction ks as [|k ks IH]; intros acc j; simpl.
  - rewrite elem_of_nil. naive_solver.
  - rewrite IH, elem_of_first_seen_step, elem_of_cons. naive_solver.
Qed.

(** The vertex list that the loop of [read_netlist] builds. *)
Lemma read_lines_first_seen (lines : list (Z * Z)) : ∀ es ids (seen : gset Z),
  (∀ k, k ∈ seen ↔ k ∈ ids) →
  read_lines lines es (fresh_vertices ids) seen
  = (fresh_vertices (foldl first_seen_step ids (endpoints lines)), es ++ lines).
Proof.
  induction lines as [|[l r] lines IH]; intros es ids seen Hseen; simpl.
  { by rewrite app_nil_r. }
  assert (Hstep : ∀ k ids0 (seen0 : gset Z),
            (∀ j, j ∈ seen0 ↔ j ∈ ids0) →
            ∃ seen1,
              (if bool_decide (k ∉ seen0)
               then (fresh_vertices ids0 ++ [Vertex_init k], {[k]} ∪ seen0)
               else (fresh_vertices ids0, seen0))
              = (fresh_vertices (first_seen_step ids0 k), seen1)
              ∧ ∀ j, j ∈ seen1 ↔ j ∈ first_seen_step ids0 k).
  { intros k ids0 seen0 Hseen0. unfold first_seen_step.
    destruct (decide (k ∈ ids0)) as [Hin|Hin].
    - rewrite bool_decide_eq_false_2 by (rewrite Hseen0; tauto).
      by eexists.
    - rewrite bool_decide_eq_true_2 by (by rewrite Hseen0).
      eexists. rewrite fresh_vertices_snoc. split; [done|].
      intros j. rewrite elem_of_union, elem_of_singleton, elem_of_app,
        list_elem_of_singleton, Hseen0. tauto. }
  destruct (Hstep l ids seen Hseen) as (seen1 & -> & Hseen1).
  destruct (Hstep r _ seen1 Hseen1) as (seen2 & -> & Hseen2).
  rewrite (IH _ _ _ Hseen2). by rewrite <- app_assoc.
Qed.

Lemma read_netlist_eq (lines : list (Z * Z)) :
  read_netlist lines
  = Graph_init (fresh_vertices (first_seen (endpoints lines))) lines.
Proof.
  unfold read_netlist, first_seen.
  change (@nil Vertex) with (fresh_vertices []).
  rewrite (read_lines_first_seen lines [] [] ∅); [done|].
  intros k. rewrite elem_of_nil. set_solver.
Qed.

Lemma elem_of_endpoints (lines : list (Z * Z)) k :
  k ∈ endpoints lines ↔ ∃ l r, (l, r) ∈ lines ∧ (k = l ∨ k = r).
Proof.
  unfold endpoints. rewrite list_elem_of_bind. split.
  - intros ([l r] & Hk & Hin). exists l, r. split; [done|].
    simpl in Hk. rewrite !elem_of_cons, elem_of_nil in Hk. tauto.
  - intros (l & r & Hin & Hk). exists (l, r). split; [|done].
    simpl. rewrite !elem_of_cons. tauto.
Qed.

(** X6: [read_netlist] never raises: every id of a line has been made a vertex
    before [Graph.__init__] looks it up.  The graph has one edge per line,
    in file order, and its vertices are unlabelled. *)
Theorem read_netlist_returns (lines : list (Z * Z)) :
  ∃ g, read_netlist lines = Ok g
       ∧ edge_ids <$> graph_edges g = lines
       ∧ ∀ v, v ∈ vertices g → partition_label v = None.
Proof.
  rewrite read_netlist_eq. unfold Graph_init.
  set (vs0 := fresh_vertices (first_seen (endpoints lines))).
  destruct (link_edges_known (build_vertex_dict vs0 0 ∅) lines 0 vs0 [])
    as [[vs es] Hlink].
  { intros l r Hin. rewrite !build_vertex_dict_known. unfold vs0.
    rewrite ids_fresh_vertices. unfold first_seen.
    rewrite !elem_of_foldl_first_seen, !elem_of_endpoints. naive_solver. }
  rewrite Hlink. cbn. eexists. split; [done|]. simpl.
  apply link_edges_frame in Hlink as (_ & Hlabs & new & -> & Hraw & _).
  split; [done|]. intros v Hv.
  assert (Hin : partition_label v ∈ partition_label <$> vs)
    by by apply list_elem_of_fmap_2.
  rewrite Hlabs in Hin. unfold vs0, fresh_vertices in Hin.
  rewrite <- list_fmap_compose in Hin.
  by apply list_elem_of_fmap in Hin as (k & -> & _).
Qed.

(** X7: The vertices that [read_netlist] creates are the ids of the lines in
    order of first appearance (left id before right id): each id occurs
    once, and only ids of the lines occur. *)
Theorem read_netlist_vertices (lines : list (Z * Z)) (g : Graph) :
  read_netlist lines = Ok g →
  id <$> vertices g = first_seen (endpoints lines)
  ∧ NoDup (id <$> vertices g)
  ∧ ∀ k, k ∈ id <$> vertices g ↔ ∃ l r, (l, r) ∈ lines ∧ (k = l ∨ k = r).
Proof.
  rewrite read_netlist_eq. unfold Graph_init.
  destruct (link_edges _ _ _ _ _) as [[vs es]|] eqn:Hlink; cbn; [|done].
  intros [= <-]. simpl.
  apply link_edges_frame in Hlink as (Hids & _).
  rewrite ids_fresh_vertices in Hids. rewrite Hids. split; [done|]. split.
  - apply foldl_first_seen_NoDup, NoDup_nil_2.
  - intros k. unfold first_seen.
    rewrite elem_of_foldl_first_seen, elem_of_endpoints, elem_of_nil. naive_solver.
Qed.

(** Lines "3 1", "1 2", "3 2": the vertices are 3, 1, 2. *)
Lemma read_netlist_vertices_witness :
  let lines := [(3, 1); (1, 2); (3, 2)] in
  let g := graph_of (read_netlist lines) in
  read_netlist lines = Ok g
  ∧ id <$> vertices g = first_seen (endpoints lines)
  ∧ NoDup (id <$> vertices g)
  ∧ ∀ k, k ∈ id <$> vertices g ↔ ∃ l r, (l, r) ∈ lines ∧ (k = l ∨ k = r).
Proof.
  intros lines g.
  assert (H : read_netlist lines = Ok g) by (vm_compute; reflexivity).
  exact (conj H (read_netlist_vertices lines g H)).
Defined.

Example read_netlist_order :
  id <$> vertices (graph_of (read_netlist [(3, 1); (1, 2); (3, 2)])) = [3; 1; 2].
Proof. vm_compute. reflexivity. Qed.

(** ** D-values and cut cost *)

Lemma sumZ_signs {X} (f : X → Z) (l : list X) :
  (∀ x, x ∈ l → f x = 1 ∨ f x = -1) →
  ∃ k, 0 ≤ k ≤ Z.of_nat (length l) ∧ sumZ f l = 2 * k - Z.of_nat (length l).
Proof.
  induction l as [|x l IH]; intros Hf.
  { exists 0. simpl. lia. }
  destruct IH as (k & Hk & Hsum).
  { intros y Hy. apply Hf. by right. }
  simpl sumZ. rewrite Hsum, length_cons.
  destruct (Hf x) as [->| ->]; [left|exists (k + 1)|exists k]; lia.
Qed.

(** X8: The D-value of a vertex with d incident edges is 2k - d, where k is
    the number of incident edges whose other end carries a label different
    from the vertex's own: it lies between -d and d and has the parity of
    d. *)
Theorem get_D_value_range (vs : list Vertex) (self : Vertex) :
  let d := Z.of_nat (length (edges self)) in
  let k := Z.of_nat (length (filter
             (fun e => label_at vs (other_end self e) ≠ partition_label self)
             (edges self))) in
  get_D_value vs self = 2 * k - d ∧ 0 ≤ k ≤ d ∧ - d ≤ get_D_value vs self ≤ d.
Proof.
  intros d k.
  assert (Hk : 0 ≤ k ≤ d).
  { unfold k, d. pose proof (length_filter
      (fun e => label_at vs (other_end self e) ≠ partition_label self)
      (edges self)). lia. }
  assert (HD : get_D_value vs self = 2 * k - d).
  { unfold k, d. rewrite get_D_value_sum. clear.
    induction (edges self) as [|e es IH]; [done|].
    rewrite filter_cons. simpl sumZ. rewrite IH. unfold D_term at 1. cbv zeta.
    fold (other_end self e).
    case_bool_decide; case_decide; try tauto; rewrite ?length_cons; lia. }
  split; [done|]. split; [done|]. lia.
Qed.

Lemma sumZ_le {X} (f h : X → Z) (l : list X) :
  (∀ x, x ∈ l → f x ≤ h x) → sumZ f l ≤ sumZ h l.
Proof.
  induction l as [|x l IH]; intros Hfh; simpl; [lia|].
  pose proof (Hfh x ltac:(left)).
  assert (sumZ f l ≤ sumZ h l); [|lia].
  apply IH. intros y Hy. apply Hfh. by right.
Qed.

(** X9: A self-loop is never counted as cut: the cut cost of a graph is that
    of the graph without its self-loops, so it is at most the number of
    edges whose two ends are different vertices (and at least 0). *)
Theorem get_partition_cost_range (g : Graph) :
  get_partition_cost g = get_partition_cost (without_loops g)
  ∧ 0 ≤ get_partition_cost g
       ≤ Z.of_nat (length (filter (fun e => left_v e ≠ right_v e) (graph_edges g))).
Proof.
  assert (Heq : get_partition_cost g = get_partition_cost (without_loops g)).
  { unfold get_partition_cost, without_loops. simpl. f_equal. f_equal.
    induction (graph_edges g) as [|e es IH]; [done|].
    rewrite !filter_cons.
    destruct (decide (left_v e ≠ right_v e)) as [Hne|Heq].
    - rewrite filter_cons. case_decide; by rewrite IH.
    - apply dec_stable in Heq. rewrite decide_False by (rewrite Heq; tauto).
      exact IH. }
  split; [exact Heq|]. rewrite Heq.
  unfold get_partition_cost, without_loops. simpl.
  pose proof (length_filter
    (fun edge => label_at (vertices g) (left_v edge)
                 ≠ label_at (vertices g) (right_v edge))
    (filter (fun e => left_v e ≠ right_v e) (graph_edges g))).
  lia.
Qed.

(** X10: Before any label is assigned the cut cost is 0: [get_partition_cost]
    compares [None] with [None] and raises nothing. *)
Theorem get_partition_cost_unlabelled (g : Graph) :
  (∀ v, v ∈ vertices g → partition_label v = None) →
  get_partition_cost g = 0.
Proof.
  intros Hn.
  assert (Hlab : ∀ i, label_at (vertices g) i = None).
  { intros i. unfold label_at. destruct (vertices g !! i) as [v|] eqn:Hv; [|done].
    simpl. apply Hn. by eapply list_elem_of_lookup_2. }
  unfold get_partition_cost.
  induction (graph_edges g) as [|e es IH]; [done|].
  rewrite filter_cons, decide_False; [done|]. rewrite !Hlab. tauto.
Qed.

(** The graph read from the lines "1 2", "2 3", "3 1". *)
Lemma get_partition_cost_unlabelled_witness :
  let g := graph_of (read_netlist [(1, 2); (2, 3); (3, 1)]) in
  (∀ v, v ∈ vertices g → partition_label v = None)
  ∧ get_partition_cost g = 0.
Proof.
  intros g.
  assert (H : ∀ v, v ∈ vertices g → partition_label v = None).
  { intros v Hv. vm_compute in Hv.
    repeat (apply elem_of_cons in Hv as [->|Hv]; [reflexivity|]).
    by apply elem_of_nil in Hv. }
  exact (conj H (get_partition_cost_unlabelled g H)).
Defined.

(** * Further properties of [partition] *)

(** ** What a run keeps *)

(** A property of the labelled vertex list that every swap keeps is kept
    by the outer loop. *)
Lemma outer_loop_preserves (P : list Vertex → Prop) incremental :
  (∀ vs a b, P vs → a ∈ select_group LabelA vs → b ∈ select_group LabelB vs →
             P (swap_labels a.1 b.1 vs)) →
  ∀ n st st',
    P (l_vertices st) → outer_loop incremental n st = Ok st' →
    P (l_vertices st').
Proof.
  intros HP. induction n as [|n IH]; intros st st' Hst; simpl.
  { by intros [= <-]. }
  destruct (outer_iteration incremental st) as [[c st1]|] eqn:Hit; cbn; [|done].
  destruct (outer_iteration_inhabited _ _ _ _ Hit) as [HA HB].
  destruct (outer_iteration_spec incremental st HA HB)
    as (a & b & mg & Hbest & [[_ Hbr]|[_ [D' Hco]]]).
  - rewrite Hbr in Hit. injection Hit as <- <-. by intros [= <-].
  - rewrite Hco in Hit. injection Hit as <- <-.
    apply IH. simpl.
    apply best_candidate_in in Hbest as (Ha & Hb & _). by apply HP.
Qed.

(** The final labelled vertex list of a run, with what the loop keeps. *)
Lemma partition_run_preserves (P : list Vertex → Prop) (g : Graph) :
  (∀ vs a b, P vs → a ∈ select_group LabelA vs → b ∈ select_group LabelB vs →
             P (swap_labels a.1 b.1 vs)) →
  P (imap (bisected 0 (length (vertices g) / 2) (length (vertices g) / 2))
          (vertices g)) →
  ∃ st, partition_run true g = Ok (relabel g (l_vertices st), st)
        ∧ P (l_vertices st).
Proof.
  intros HP H0.
  destruct (partition_run_returns true g) as (st & Hrun & _).
  exists st. split; [done|].
  revert Hrun. unfold partition_run. rewrite initial_split_eq.
  unfold mbind, result_bind.
  destruct (outer_loop _ _ _) as [st1|] eqn:Hloop; [|done].
  intros [= _ <-].
  by apply (outer_loop_preserves P true HP _ (initial_locals _) _ H0 Hloop).
Qed.

(** X11: [partition] changes labels only: the edge list, the vertex ids and the
    adjacency lists of the graph are the same after the run. *)
Theorem partition_keeps_topology (g : Graph) :
  ∃ g' st,
    partition_run true g = Ok (g', st)
    ∧ graph_edges g' = graph_edges g
    ∧ id <$> vertices g' = id <$> vertices g
    ∧ edges <$> vertices g' = edges <$> vertices g.
Proof.
  destruct (partition_run_preserves
              (fun vs => shape <$> vs = shape <$> vertices g) g)
    as (st & Hrun & Hshape).
  - intros vs a b Hvs _ _. by rewrite shape_swap_labels.
  - apply shape_bisected.
  - exists (relabel g (l_vertices st)), st. split; [done|]. split; [done|].
    simpl. split; [by apply shape_ids|].
    change edges with (snd ∘ shape).
    by rewrite !(list_fmap_compose shape snd), Hshape.
Qed.

(** X12: Both returned groups list their vertex ids in the order of the graph's
    vertex list. *)
Theorem partition_groups_in_order (g : Graph) :
  ∃ cutset group_a group_b,
    partition g = Ok (cutset, group_a, group_b)
    ∧ group_a `sublist_of` id <$> vertices g
    ∧ group_b `sublist_of` id <$> vertices g.
Proof.
  destruct (partition_run_preserves
              (fun vs => shape <$> vs = shape <$> vertices g) g)
    as (st & Hrun & Hshape).
  - intros vs a b Hvs _ _. by rewrite shape_swap_labels.
  - apply shape_bisected.
  - unfold partition, partition_with. rewrite Hrun.
    unfold mbind, result_bind, partition_result. do 3 eexists. split; [done|].
    rewrite <- (shape_ids _ _ Hshape). unfold group_ids. simpl.
    split; apply fmap_sublist, sublist_filter.
Qed.

Lemma filter_labels_Permutation (vs : list Vertex) :
  all_labelled vs →
  filter (fun v => partition_label v = Some LabelA) vs
  ++ filter (fun v => partition_label v = Some LabelB) vs ≡ₚ vs.
Proof.
  induction vs as [|v vs IH]; intros Hlab; [done|].
  assert (Hvs : all_labelled vs).
  { intros w Hw. apply Hlab. by right. }
  rewrite !filter_cons.
  destruct (Hlab v) as [[|] Hl]; [left|..]; rewrite Hl.
  - rewrite decide_True, decide_False by done. simpl. by rewrite IH.
  - rewrite decide_False, decide_True by done.
    rewrite <- Permutation_middle. by rewrite IH.
Qed.

(** X13: On a graph with an even number of vertices, every vertex id is returned
    in exactly one of the two groups. *)
Theorem partition_groups_cover_even (g : Graph) :
  Nat.Even (length (vertices g)) →
  ∃ cutset group_a group_b,
    partition g = Ok (cutset, group_a, group_b)
    ∧ group_a ++ group_b ≡ₚ id <$> vertices g.
Proof.
  intros Hev.
  destruct (partition_run_preserves
              (fun vs => shape <$> vs = shape <$> vertices g ∧ all_labelled vs) g)
    as (st & Hrun & Hshape & Hlab).
  - intros vs a b [Hvs Hl] _ _. split; [by rewrite shape_swap_labels|].
    by apply all_labelled_swap.
  - split; [apply shape_bisected|by apply bisected_all_labelled].
  - unfold partition, partition_with. rewrite Hrun.
    unfold mbind, result_bind, partition_result. do 3 eexists. split; [done|].
    rewrite <- (shape_ids _ _ Hshape). unfold group_ids. simpl.
    rewrite <- fmap_app. by rewrite filter_labels_Permutation.
Qed.

(** The graph read from the lines "1 3" and "2 4". *)
Lemma partition_groups_cover_even_witness :
  let g := graph_of (read_netlist [(1, 3); (2, 4)]) in
  Nat.Even (length (vertices g))
  ∧ ∃ cutset group_a group_b,
      partition g = Ok (cutset, group_a, group_b)
      ∧ group_a ++ group_b ≡ₚ id <$> vertices g.
Proof.
  intros g.
  assert (H : Nat.Even (length (vertices g))) by (exists 2%nat; reflexivity).
  exact (conj H (partition_groups_cover_even g H)).
Defined.

(** ** Facts about the scenario graphs *)

Lemma NoDup_1234 : NoDup [1; 2; 3; 4].
Proof.
  repeat (apply NoDup_cons; split; [set_solver|]). apply NoDup_nil_2.
Qed.

Lemma crossed4_no_reversed : no_reversed [(1, 3); (2, 4)].
Proof. intros l r Hin Hrev. set_solver. Qed.

Lemma cycle4_no_reversed : no_reversed [(1, 2); (2, 3); (3, 4); (4, 1)].
Proof. intros l r Hin Hrev. set_solver. Qed.

Lemma Even_4 : Nat.Even (length [1; 2; 3; 4]).
Proof. by exists 2%nat. Qed.

Lemma entry_state_run_state (r : result Graph) (g : Graph) :
  r = Ok g → run_state g (entry_state r).
Proof.
  intros ->. unfold entry_state. cbn [mbind result_bind].
  rewrite initial_split_eq. apply run_entry, initial_split_eq.
Qed.

(** ** Gain and cut cost along a run *)

(** The first iteration on [crossed4]. *)
Lemma accepted_gain_is_cost_drop_witness :
  let g := graph_of crossed4 in
  let st := entry_state crossed4 in
  NoDup [1; 2; 3; 4] ∧ no_reversed [(1, 3); (2, 4)]
  ∧ Nat.Even (length [1; 2; 3; 4])
  ∧ Graph_init (fresh_vertices [1; 2; 3; 4]) [(1, 3); (2, 4)] = Ok g
  ∧ run_state g st
  ∧ outer_iteration true st = Ok (Continue, next_state st)
  ∧ cost_in g st - cost_in g (next_state st)
    = total_gain (next_state st) - total_gain st
  ∧ 0 < total_gain (next_state st) - total_gain st.
Proof.
  intros g st.
  assert (Hg : Graph_init (fresh_vertices [1; 2; 3; 4]) [(1, 3); (2, 4)] = Ok g)
    by (vm_compute; reflexivity).
  assert (Hrun : run_state g st) by exact (entry_state_run_state crossed4 g Hg).
  assert (Hit : outer_iteration true st = Ok (Continue, next_state st))
    by (vm_compute; reflexivity).
  destruct (accepted_gain_is_cost_drop _ _ g st (next_state st)
              NoDup_1234 crossed4_no_reversed Even_4 Hg Hrun Hit) as [H1 H2].
  exact (conj NoDup_1234 (conj crossed4_no_reversed (conj Even_4
           (conj Hg (conj Hrun (conj Hit (conj H1 H2))))))).
Defined.

Lemma cost_never_rises_on_even_simple_witness :
  let g := graph_of crossed4 in
  let st := entry_state crossed4 in
  NoDup [1; 2; 3; 4] ∧ no_reversed [(1, 3); (2, 4)]
  ∧ Nat.Even (length [1; 2; 3; 4])
  ∧ Graph_init (fresh_vertices [1; 2; 3; 4]) [(1, 3); (2, 4)] = Ok g
  ∧ run_state g st
  ∧ outer_iteration true st = Ok (Continue, next_state st)
  ∧ cost_in g (next_state st) ≤ cost_in g st.
Proof.
  intros g st.
  assert (Hg : Graph_init (fresh_vertices [1; 2; 3; 4]) [(1, 3); (2, 4)] = Ok g)
    by (vm_compute; reflexivity).
  assert (Hrun : run_state g st) by exact (entry_state_run_state crossed4 g Hg).
  assert (Hit : outer_iteration true st = Ok (Continue, next_state st))
    by (vm_compute; reflexivity).
  exact (conj NoDup_1234 (conj crossed4_no_reversed (conj Even_4
           (conj Hg (conj Hrun (conj Hit
              (cost_never_rises_on_even_simple _ _ g st (next_state st) Continue
                 NoDup_1234 crossed4_no_reversed Even_4 Hg Hrun Hit))))))).
Defined.

Lemma outer_loop_cost incremental (g : Graph) n : ∀ st st',
  well_linked (l_vertices st) (graph_edges g) → all_labelled (l_vertices st) →
  outer_loop incremental n st = Ok st' →
  cost_in g st - cost_in g st' = total_gain st' - total_gain st
  ∧ total_gain st ≤ total_gain st'.
Proof.
  induction n as [|n IH]; intros st st' Hwl Hlab; simpl.
  { intros [= <-]. lia. }
  destruct (outer_iteration incremental st) as [[[|] st1]|] eqn:Hit; cbn; [| |done].
  - destruct (accepted_swap_cost_change incremental g st st1 Hwl Hlab Hit)
      as (Hdrop & Hpos & Hwl1 & Hlab1).
    intros Hloop. destruct (IH st1 st' Hwl1 Hlab1 Hloop). lia.
  - intros [= <-]. destruct (break_keeps_labels incremental st st1 Hit) as [Hvs Htg].
    unfold cost_in. rewrite Hvs, Htg. lia.
Qed.

(** X17: On a graph built from distinct vertex ids and a simple edge list, with
    an even number of vertices, the cut that [partition] ends with is the
    cut of the initial bisection less the accumulated [total_gain], which
    is never negative: the run never ends with a larger cut than it
    started with. *)
Theorem partition_cut_accounting (ids : list Z) (raw : list (Z * Z)) (g : Graph) :
  NoDup ids → no_reversed raw → Nat.Even (length ids) →
  Graph_init (fresh_vertices ids) raw = Ok g →
  ∃ vs0 g' st,
    initial_split g = Ok vs0
    ∧ partition_run true g = Ok (g', st)
    ∧ get_partition_cost g'
      = get_partition_cost (relabel g vs0) - total_gain st
    ∧ 0 ≤ total_gain st.
Proof.
  intros Hnd Hrev Hev Hg.
  destruct (even_simple_run_invariant ids raw g _ Hnd Hrev Hev Hg
              (run_entry g _ (initial_split_eq g))) as [Hwl Hlab].
  destruct (partition_run_returns true g) as (st & Hrun & _).
  eexists _, _, st. split; [apply initial_split_eq|]. split; [exact Hrun|].
  revert Hrun. unfold partition_run. rewrite initial_split_eq.
  unfold mbind, result_bind.
  destruct (outer_loop _ _ _) as [st1|] eqn:Hloop; [|done].
  intros [= _ <-].
  destruct (outer_loop_cost true g _ _ _ Hwl Hlab Hloop) as [Hcost Htg].
  unfold cost_in in Hcost. simpl in *. lia.
Qed.

Lemma partition_cut_accounting_witness :
  let g := graph_of crossed4 in
  NoDup [1; 2; 3; 4] ∧ no_reversed [(1, 3); (2, 4)]
  ∧ Nat.Even (length [1; 2; 3; 4])
  ∧ Graph_init (fresh_vertices [1; 2; 3; 4]) [(1, 3); (2, 4)] = Ok g
  ∧ ∃ vs0 g' st,
      initial_split g = Ok vs0
      ∧ partition_run true g = Ok (g', st)
      ∧ get_partition_cost g'
        = get_partition_cost (relabel g vs0) - total_gain st
      ∧ 0 ≤ total_gain st.
Proof.
  intros g.
  assert (Hg : Graph_init (fresh_vertices [1; 2; 3; 4]) [(1, 3); (2, 4)] = Ok g)
    by (vm_compute; reflexivity).
  exact (conj NoDup_1234 (conj crossed4_no_reversed (conj Even_4 (conj Hg
           (partition_cut_accounting _ _ g
              NoDup_1234 crossed4_no_reversed Even_4 Hg))))).
Defined.

(** X18: Under the same conditions, when a pass through the loop body breaks,
    exchanging any vertex of group A with any vertex of group B would not
    lower the cut: the labels are a local optimum for single swaps. *)
Theorem break_is_swap_optimum (ids : list Z) (raw : list (Z * Z))
    (g : Graph) (st st' : locals) :
  NoDup ids → no_reversed raw → Nat.Even (length ids) →
  Graph_init (fresh_vertices ids) raw = Ok g →
  run_state g st →
  outer_iteration true st = Ok (Break, st') →
  ∀ ia va ib vb,
    l_vertices st !! ia = Some va → partition_label va = Some LabelA →
    l_vertices st !! ib = Some vb → partition_label vb = Some LabelB →
    cost_in g st
    ≤ get_partition_cost (relabel g (swap_labels ia ib (l_vertices st))).
Proof.
  intros Hnd Hrev Hev Hg Hrun Hit ia va ib vb Ha HlA Hb HlB.
  destruct (even_simple_run_invariant ids raw g st Hnd Hrev Hev Hg Hrun)
    as [Hwl Hlab].
  destruct (outer_iteration_inhabited _ _ _ _ Hit) as [HA HB].
  destruct (outer_iteration_spec true st HA HB)
    as (a & b & mg & Hbest & [[Hle _]|[_ [D' Hco]]]).
  2: { rewrite Hco in Hit. discriminate Hit. }
  destruct (best_candidate_first_max _ _ _ _ Hbest)
    as (pre & post & Hc & Hpre & Hpost).
  assert (Hin : ((ia, va), (ib, vb),
                 gain (compute_D_values (l_vertices st)) va vb)
                ∈ candidates (compute_D_values (l_vertices st))
                    (select_group LabelA (l_vertices st))
                    (select_group LabelB (l_vertices st))).
  { apply elem_of_candidates. simpl. by rewrite !elem_of_select_group. }
  assert (Hgain : gain (compute_D_values (l_vertices st)) va vb ≤ 0).
  { rewrite Hc in Hin. rewrite Forall_forall in Hpre, Hpost.
    apply elem_of_app in Hin as [Hin|Hin].
    - specialize (Hpre _ Hin). simpl in Hpre. lia.
    - apply elem_of_cons in Hin as [Hin|Hin].
      + injection Hin as _ _ ->. lia.
      + specialize (Hpost _ Hin). simpl in Hpost. lia. }
  pose proof (swap_cost_change _ _ ia ib va vb Hwl Hlab Ha Hb HlA HlB) as Hdrop.
  unfold gain in Hgain.
  rewrite !compute_D_values_lookup in Hgain;
    [|first [apply (wl_ids _ _ Hwl)|by eapply list_elem_of_lookup_2]..].
  unfold cost_in, relabel. simpl. lia.
Qed.

(** The first iteration on the 4-cycle breaks. *)
Lemma break_is_swap_optimum_witness :
  let g := graph_of cycle4 in
  let st := entry_state cycle4 in
  NoDup [1; 2; 3; 4] ∧ no_reversed [(1, 2); (2, 3); (3, 4); (4, 1)]
  ∧ Nat.Even (length [1; 2; 3; 4])
  ∧ Graph_init (fresh_vertices [1; 2; 3; 4]) [(1, 2); (2, 3); (3, 4); (4, 1)] = Ok g
  ∧ run_state g st
  ∧ outer_iteration true st = Ok (Break, next_state st)
  ∧ ∀ ia va ib vb,
      l_vertices st !! ia = Some va → partition_label va = Some LabelA →
      l_vertices st !! ib = Some vb → partition_label vb = Some LabelB →
      cost_in g st
      ≤ get_partition_cost (relabel g (swap_labels ia ib (l_vertices st))).
Proof.
  intros g st.
  assert (Hg : Graph_init (fresh_vertices [1; 2; 3; 4])
                 [(1, 2); (2, 3); (3, 4); (4, 1)] = Ok g)
    by (vm_compute; reflexivity).
  assert (Hrun : run_state g st) by exact (entry_state_run_state cycle4 g Hg).
  assert (Hit : outer_iteration true st = Ok (Break, next_state st))
    by (vm_compute; reflexivity).
  exact (conj NoDup_1234 (conj cycle4_no_reversed (conj Even_4
           (conj Hg (conj Hrun (conj Hit
              (break_is_swap_optimum _ _ g st (next_state st)
                 NoDup_1234 cycle4_no_reversed Even_4 Hg Hrun Hit))))))).
Defined.

(** ** Group sizes and a second run *)

(** The graph read from the lines "1 2" and "2 3": three unlabelled vertices. *)
Lemma partition_group_sizes_witness :
  let g := graph_of path3 in
  (∀ v, v ∈ vertices g → partition_label v = None)
  ∧ ∃ cutset group_a group_b,
      partition g = Ok (cutset, group_a, group_b)
      ∧ length group_a = (length (vertices g) / 2)%nat
      ∧ length group_b = (length (vertices g) / 2)%nat.
Proof.
  intros g.
  assert (H : ∀ v, v ∈ vertices g → partition_label v = None).
  { intros v Hv. vm_compute in Hv.
    repeat (apply elem_of_cons in Hv as [->|Hv]; [reflexivity|]).
    by apply elem_of_nil in Hv. }
  exact (conj H (partition_group_sizes g H)).
Defined.

Lemma bisected_agree h (vs vs' : list Vertex) :
  shape <$> vs' = shape <$> vs →
  (∀ i v, vs !! i = Some v → (2 * h ≤ i)%nat → partition_label v = None) →
  (∀ i v, vs' !! i = Some v → (2 * h ≤ i)%nat → partition_label v = None) →
  imap (bisected 0 h h) vs' = imap (bisected 0 h h) vs.
Proof.
  intros Hs Hn Hn'. apply list_eq. intros j. rewrite !list_lookup_imap.
  destruct (vs' !! j) as [v'|] eqn:Hv'.
  - destruct (shape_lookup vs' vs j v' Hs Hv') as (v & Hv & Hid & Hed).
    rewrite Hv. simpl. f_equal. unfold bisected.
    repeat case_decide; unfold set_label; try (by rewrite Hid, Hed).
    pose proof (Hn j _ Hv ltac:(lia)) as H1.
    pose proof (Hn' j _ Hv' ltac:(lia)) as H2.
    destruct v as [i1 e1 l1], v' as [i2 e2 l2]. simpl in *. by subst.
  - assert (Hnone : (shape <$> vs) !! j = None).
    { by rewrite <- Hs, list_lookup_fmap, Hv'. }
    rewrite list_lookup_fmap in Hnone.
    by destruct (vs !! j).
Qed.

(** X19: Running [partition] a second time on the graph as the first run left it
    returns the same cut and the same groups: the bisection resets every
    label (the vertex that an odd count leaves over is assumed to carry no
    label on entry, as after [read_netlist]). *)
Theorem partition_rerun_same (g : Graph) :
  (∀ v, v ∈ drop (2 * (length (vertices g) / 2)) (vertices g) →
        partition_label v = None) →
  ∃ g' st r,
    partition_run true g = Ok (g', st)
    ∧ partition g = Ok r
    ∧ partition g' = Ok r.
Proof.
  intros Hn. set (h := (length (vertices g) / 2)%nat) in *.
  assert (Hn0 : ∀ i v, vertices g !! i = Some v → (2 * h ≤ i)%nat →
                       partition_label v = None).
  { intros i v Hv Hi. apply Hn. apply list_elem_of_lookup.
    exists (i - 2 * h)%nat. rewrite lookup_drop.
    by replace (2 * h + (i - 2 * h))%nat with i by lia. }
  destruct (partition_run_preserves
              (fun vs => shape <$> vs = shape <$> vertices g
                         ∧ ∀ i v, vs !! i = Some v → (2 * h ≤ i)%nat →
                                  partition_label v = None) g)
    as (st & Hrun & Hshape & Hnone).
  - intros vs a b [Hvs Hl] Ha Hb.
    split; [by rewrite shape_swap_labels|].
    pose proof (select_group_disjoint vs a b Ha Hb) as Hne.
    destruct a as [ia va], b as [ib vb]. simpl in *.
    apply elem_of_select_group in Ha as [Ha HlA].
    apply elem_of_select_group in Hb as [Hb HlB].
    intros i v Hv Hi.
    assert (i ≠ ia) by (intros ->; specialize (Hl _ _ Ha Hi); congruence).
    assert (i ≠ ib) by (intros ->; specialize (Hl _ _ Hb Hi); congruence).
    rewrite swap_labels_lookup_ne in Hv by done. by eapply Hl.
  - split; [apply shape_bisected|].
    intros i v Hv Hi. rewrite list_lookup_imap in Hv.
    apply fmap_Some in Hv as (w & Hw & ->).
    fold h. unfold bisected. repeat case_decide; try lia. by eapply Hn0.
  - assert (Hlen : length (l_vertices st) = length (vertices g)).
    { by rewrite <- (length_fmap shape), Hshape, length_fmap. }
    assert (Hrun' : partition_run true (relabel g (l_vertices st))
                    = partition_run true g).
    { unfold partition_run. rewrite !initial_split_eq.
      change (vertices (relabel g (l_vertices st))) with (l_vertices st).
      rewrite Hlen. fold h.
      by rewrite (bisected_agree h (vertices g) (l_vertices st) Hshape Hn0 Hnone). }
    exists (relabel g (l_vertices st)), st, (partition_result (relabel g (l_vertices st))).
    split; [done|].
    unfold partition, partition_with. rewrite Hrun', Hrun. done.
Qed.

(** The graph read from the lines "1 2", "1 3", "2 4", "2 5", "3 5": five
    unlabelled vertices. *)
Lemma partition_rerun_same_witness :
  let g := graph_of house5 in
  (∀ v, v ∈ drop (2 * (length (vertices g) / 2)) (vertices g) →
        partition_label v = None)
  ∧ ∃ g' st r,
      partition_run true g = Ok (g', st)
      ∧ partition g = Ok r
      ∧ partition g' = Ok r.
Proof.
  intros g.
  assert (H : ∀ v, v ∈ drop (2 * (length (vertices g) / 2)) (vertices g) →
                   partition_label v = None).
  { intros v Hv. vm_compute in Hv.
    repeat (apply elem_of_cons in Hv as [->|Hv]; [reflexivity|]).
    by apply elem_of_nil in Hv. }
  exact (conj H (partition_rerun_same g H)).
Defined.

(** ** The incremental update of [D_values] against recomputation *)

(** The change of one summand of [get_D_value] for the vertex [i], which is
    neither [ia] nor [ib], under the exchange of the labels of [ia] and
    [ib]. *)
Lemma D_change_abs (lab : nat → option Label) (i ia ib l r : nat)
    (lx : option Label) :
  i ≠ ia → i ≠ ib → ia ≠ ib → l ≠ r →
  lab ia = Some LabelA → lab ib = Some LabelB →
  (if decide (l = i ∨ r = i)
   then (if decide ((if decide ((if decide (r = i) then l else r) = ib)
                     then Some LabelA
                     else if decide ((if decide (r = i) then l else r) = ia)
                          then Some LabelB
                          else lab (if decide (r = i) then l else r)) ≠ lx)
         then 1 else -1)
   else 0)
  - (if decide (l = i ∨ r = i)
     then (if decide (lab (if decide (r = i) then l else r) ≠ lx) then 1 else -1)
     else 0)
  = label_sign lx
    * (2 * (if decide ((l = i ∨ r = i) ∧ (l = ia ∨ r = ia)) then 1 else 0)
       - 2 * (if decide ((l = i ∨ r = i) ∧ (l = ib ∨ r = ib)) then 1 else 0)).
Proof.
  intros Hia Hib Hab Hlr HA HB.
  destruct (decide (l = i)) as [Ei|Ei]; destruct (decide (r = i)) as [Fi|Fi];
    destruct (decide (l = ia)) as [El|El]; destruct (decide (r = ia)) as [Er|Er];
    destruct (decide (l = ib)) as [Fl|Fl]; destruct (decide (r = ib)) as [Fr|Fr];
    try lia; subst; decide_by_lia; rewrite ?HA, ?HB;
    destruct lx as [[|]|]; simpl;
    repeat case_decide; congruence || lia.
Qed.

Lemma select_group_NoDup_refs l (vs : list Vertex) :
  NoDup (select_group l vs).*1.
Proof.
  unfold select_group.
  eapply sublist_NoDup; [|apply fmap_sublist, sublist_filter].
  assert (Heq : (imap pair vs).*1 = seq 0 (length vs)).
  { apply list_eq. intros j. rewrite list_lookup_fmap, list_lookup_imap.
    destruct (vs !! j) as [v|] eqn:Hv; simpl.
    - symmetry. apply lookup_seq. split; [done|]. by eapply lookup_lt_Some.
    - symmetry. apply lookup_seq_ge. by apply lookup_ge_None. }
  rewrite Heq. apply NoDup_seq.
Qed.

Lemma filter_all {X} (P : X → Prop) `{!∀ x, Decision (P x)} (l : list X) :
  (∀ x, x ∈ l → P x) → filter P l = l.
Proof.
  induction l as [|x l IH]; intros HP; [done|].
  rewrite filter_cons, decide_True by (apply HP; left).
  rewrite IH; [done|]. intros y Hy. apply HP. by right.
Qed.

(** [group.remove(v)] drops the one entry that refers to [v]. *)
Lemma list_remove_filter ref (group : list (nat * Vertex)) :
  NoDup group.*1 → ref ∈ group.*1 →
  list_remove ref group = Ok (filter (fun x => x.1 ≠ ref) group).
Proof.
  induction group as [|x group IH]; simpl; intros Hnd Hin.
  { by apply elem_of_nil in Hin. }
  apply NoDup_cons in Hnd as [Hx Hnd]. rewrite filter_cons.
  case_bool_decide as Heq.
  - rewrite decide_False by tauto. f_equal. symmetry.
    apply filter_all. intros y Hy Hyr.
    apply Hx. rewrite Heq, <- Hyr. by apply list_elem_of_fmap_2.
  - rewrite decide_True by done.
    apply elem_of_cons in Hin as [->|Hin]; [done|].
    by rewrite IH.
Qed.

(** One loop of the update, on a table that has every key once. *)
Lemma update_D_values_lookup first second (group : list (nat * Vertex)) : ∀ D,
  covers D group → NoDup ((fun x => id x.2) <$> group) →
  ∃ D', update_D_values first second group D = Ok D'
        ∧ (∀ x, x ∈ group →
             D' !! id x.2
             = Some (D !!! id x.2
                     + (2 * common_edges x.2 first - 2 * common_edges x.2 second)))
        ∧ (∀ k, k ∉ (fun x => id x.2) <$> group → D' !! k = D !! k).
Proof.
  induction group as [|x group IH]; intros D Hc Hnd; simpl.
  { exists D. split; [done|]. split; [|done].
    intros y Hy. by apply elem_of_nil in Hy. }
  rewrite fmap_cons in Hnd. apply NoDup_cons in Hnd as [Hx Hnd].
  rewrite (dict_get_covers D (x :: group) x) by (done || left). cbn.
  set (D0 := <[id x.2 := D !!! id x.2
               + (2 * common_edges x.2 first - 2 * common_edges x.2 second)]> D).
  destruct (IH D0) as (D' & -> & Hin & Hout); [|done|].
  { intros y Hy. apply lookup_insert_is_Some'. right. apply Hc. by right. }
  exists D'. split; [done|]. split.
  - intros y [->|Hy]%elem_of_cons.
    + rewrite Hout by done. unfold D0. by rewrite lookup_insert_eq.
    + rewrite (Hin y Hy). do 2 f_equal. unfold D0.
      apply lookup_total_insert_ne. intros Heq. apply Hx. rewrite Heq.
      by apply (list_elem_of_fmap_2 (fun x => id x.2)).
  - intros k Hk. apply not_elem_of_cons in Hk as [Hne Hk].
    rewrite (Hout k Hk). unfold D0.
    by rewrite lookup_insert_ne.
Qed.

Lemma select_group_filter_ids (vs : list Vertex) l ref :
  NoDup (id <$> vs) →
  NoDup ((fun x => id x.2) <$> filter (fun x : nat * Vertex => x.1 ≠ ref)
                                      (select_group l vs)).
Proof.
  intros Hnd. apply NoDup_fmap_2_strong.
  - intros [i v] [j w] [_ Hx]%list_elem_of_filter [_ Hy]%list_elem_of_filter.
    apply elem_of_select_group in Hx as [Hx _].
    apply elem_of_select_group in Hy as [Hy _]. simpl. intros Hid.
    assert (i = j) as -> by by eapply lookup_id_inj.
    congruence.
  - apply NoDup_filter. eapply NoDup_fmap_1. apply select_group_NoDup_refs.
Qed.

Lemma run_state_shape (g : Graph) (st : locals) :
  run_state g st → shape <$> l_vertices st = shape <$> vertices g.
Proof.
  induction 1 as [vs0 Hsplit|st st' _ IH Hit].
  - rewrite initial_split_eq in Hsplit. injection Hsplit as <-.
    apply shape_bisected.
  - destruct (outer_iteration_inhabited _ _ _ _ Hit) as [HA HB].
    destruct (outer_iteration_spec true st HA HB)
      as (a & b & mg & _ & [[_ Hbr]|[_ [D' Hco]]]).
    + rewrite Hbr in Hit. discriminate Hit.
    + rewrite Hco in Hit. injection Hit as <-. simpl.
      by rewrite shape_swap_labels.
Qed.

(** The D-value of a vertex other than the swapped pair, recomputed on the
    labels after the swap. *)
Lemma get_D_value_after_swap (vs : list Vertex) es ia ib va vb i x :
  well_linked vs es →
  vs !! ia = Some va → vs !! ib = Some vb →
  partition_label va = Some LabelA → partition_label vb = Some LabelB →
  vs !! i = Some x → i ≠ ia → i ≠ ib →
  get_D_value (swap_labels ia ib vs) x
  = get_D_value vs x
    + label_sign (partition_label x)
      * (2 * common_edges x va - 2 * common_edges x vb).
Proof.
  intros Hwl Ha Hb HlA HlB Hx Hia Hib.
  assert (Hne : ia ≠ ib) by (intros ->; congruence).
  assert (Hwl' : well_linked (swap_labels ia ib vs) es).
  { eapply well_linked_shape; [|exact Hwl]. by rewrite shape_swap_labels. }
  assert (Hx' : swap_labels ia ib vs !! i = Some x).
  { by rewrite swap_labels_lookup_ne. }
  rewrite !get_D_value_sum, (wl_adjacency _ _ Hwl i x Hx), !sumZ_filter.
  rewrite (common_edges_count vs es i ia x va Hwl Hx Ha).
  rewrite (common_edges_count vs es i ib x vb Hwl Hx Hb).
  rewrite !length_filter_sumZ.
  assert (Hgoal : ∀ A B C D : Z, A - B = label_sign (partition_label x)
                    * (2 * C - 2 * D) →
                  A = B + label_sign (partition_label x) * (2 * C - 2 * D))
    by (intros; lia).
  apply Hgoal. rewrite <- sumZ_sub.
  rewrite <- (Z.mul_1_l (sumZ (fun e => if decide (incident i e ∧ incident ib e)
                                        then 1 else 0) es)) at 1.
  clear Hgoal.
  assert (Hpt : ∀ e, e ∈ es →
    (if decide (incident i e) then D_term (swap_labels ia ib vs) x e else 0)
    - (if decide (incident i e) then D_term vs x e else 0)
    = label_sign (partition_label x)
      * (2 * (if decide (incident i e ∧ incident ia e) then 1 else 0)
         - 2 * (if decide (incident i e ∧ incident ib e) then 1 else 0))).
  { intros e He.
    rewrite (D_term_incident _ es Hwl' i x e Hx' He).
    rewrite (D_term_incident _ es Hwl i x e Hx He).
    rewrite (label_at_swap vs ia ib va vb Ha Hb HlA HlB).
    apply D_change_abs; try done.
    - by apply (wl_no_loop _ _ Hwl).
    - unfold label_at. by rewrite Ha.
    - unfold label_at. by rewrite Hb. }
  rewrite (sumZ_ext_in _ _ es Hpt). rewrite Z.mul_1_l.
  generalize (label_sign (partition_label x)). intros s.
  clear. induction es as [|e es IH]; simpl; [lia|]. rewrite IH. lia.
Qed.

(** X20: After an accepted swap and the two update loops, the entry of
    [D_values] for every vertex other than the two swapped ones is the
    D-value recomputed from the new labels (graph built from distinct vertex
    ids and a simple edge list; the vertex count may be odd). *)
Theorem D_values_update_is_recomputation (ids : list Z) (raw : list (Z * Z))
    (g : Graph) (st st' : locals) :
  NoDup ids → no_reversed raw →
  Graph_init (fresh_vertices ids) raw = Ok g →
  run_state g st →
  outer_iteration true st = Ok (Continue, st') →
  ∃ a b,
    l_vertices st' = swap_labels a b (l_vertices st)
    ∧ ∀ i x, l_vertices st' !! i = Some x → i ≠ a → i ≠ b →
        D_values st' !! id x = Some (get_D_value (l_vertices st') x).
Proof.
  intros Hnd Hrev Hg Hrun Hit.
  destruct (Graph_init_well_linked ids raw g Hnd Hrev Hg) as [Hwl0 _].
  assert (Hwl : well_linked (l_vertices st) (graph_edges g)).
  { eapply well_linked_shape; [|exact Hwl0]. symmetry. by apply run_state_shape. }
  set (vs := l_vertices st) in *.
  pose proof (compute_D_values_covers LabelA vs) as HcA.
  pose proof (compute_D_values_covers LabelB vs) as HcB.
  revert Hit. unfold outer_iteration. fold vs.
  rewrite (compute_gains_ok _ _ _ HcA HcB). cbn.
  destruct (sorted_reverse _) as [|[[[ia va] [ib vb]] mg] rest] eqn:Hs; [done|].
  assert (Hbest : best_candidate vs = Some ((ia, va), (ib, vb), mg)).
  { unfold best_candidate. by rewrite Hs. }
  apply best_candidate_in in Hbest as (Ha & Hb & _).
  case_bool_decide as Hmg; [done|]. simpl.
  rewrite (list_remove_filter ia (select_group LabelA vs))
    by (apply select_group_NoDup_refs || by apply (list_elem_of_fmap_2 fst _ (ia, va))).
  rewrite (list_remove_filter ib (select_group LabelB vs))
    by (apply select_group_NoDup_refs || by apply (list_elem_of_fmap_2 fst _ (ib, vb))).
  cbn.
  set (ga := filter (fun x : nat * Vertex => x.1 ≠ ia) (select_group LabelA vs)).
  set (gb := filter (fun x : nat * Vertex => x.1 ≠ ib) (select_group LabelB vs)).
  destruct (update_D_values_lookup va vb ga (compute_D_values vs))
    as (D1 & -> & Hin1 & Hout1).
  { intros y [_ Hy]%list_elem_of_filter. by apply HcA. }
  { apply select_group_filter_ids, (wl_ids _ _ Hwl). }
  cbn.
  destruct (update_D_values_lookup vb va gb D1) as (D2 & -> & Hin2 & Hout2).
  { intros y [_ Hy]%list_elem_of_filter.
    destruct (decide (id y.2 ∈ (fun x : nat * Vertex => id x.2) <$> ga))
      as [Hyga|Hyga].
    - apply list_elem_of_fmap in Hyga as (y' & Heq & Hy').
      rewrite Heq, (Hin1 y' Hy'). by eexists.
    - rewrite Hout1 by done. by apply HcB. }
  { apply select_group_filter_ids, (wl_ids _ _ Hwl). }
  cbn. intros [= <-]. simpl. exists ia, ib. split; [done|].
  apply elem_of_select_group in Ha as [Ha HlA].
  apply elem_of_select_group in Hb as [Hb HlB].
  intros i x Hx' Hia Hib.
  change (swap_labels ia ib vs !! i = Some x) in Hx'.
  change (alter (set_label LabelA) ib (alter (set_label LabelB) ia vs))
    with (swap_labels ia ib vs).
  assert (Hx : vs !! i = Some x) by by rewrite swap_labels_lookup_ne in Hx'.
  rewrite (get_D_value_after_swap vs _ ia ib va vb i x Hwl Ha Hb HlA HlB Hx Hia Hib).
  assert (HD : compute_D_values vs !!! id x = get_D_value vs x).
  { apply compute_D_values_lookup; [apply (wl_ids _ _ Hwl)|].
    by eapply list_elem_of_lookup_2. }
  assert (Hdiff : ∀ l l' (y : nat * Vertex),
            y ∈ filter (fun z : nat * Vertex => z.1 ≠ l') (select_group l vs) →
            id y.2 = id x → y = (i, x)).
  { intros l l' [j w] [_ Hy]%list_elem_of_filter Hid.
    apply elem_of_select_group in Hy as [Hy _]. simpl in Hid.
    assert (j = i) as -> by (eapply lookup_id_inj; [apply (wl_ids _ _ Hwl)|done..]).
    congruence. }
  assert (Hnot : ∀ l l', partition_label x ≠ Some l →
            id x ∉ (fun z : nat * Vertex => id z.2)
                     <$> filter (fun z : nat * Vertex => z.1 ≠ l')
                                (select_group l vs)).
  { intros l l' Hl (y & Hid & Hy)%list_elem_of_fmap.
    pose proof Hy as Hy'. apply (Hdiff l l') in Hy' as ->; [|done].
    apply list_elem_of_filter in Hy as [_ Hy].
    apply elem_of_select_group in Hy as [_ Hy]. simpl in Hy. congruence. }
  destruct (partition_label x) as [[|]|] eqn:Hlx; simpl.
  - assert (Hxga : (i, x) ∈ ga).
    { apply list_elem_of_filter. split; [done|]. by apply elem_of_select_group. }
    rewrite Hout2 by (apply Hnot; congruence).
    pose proof (Hin1 _ Hxga) as H1. simpl in H1. rewrite H1, HD.
    f_equal. lia.
  - assert (Hxgb : (i, x) ∈ gb).
    { apply list_elem_of_filter. split; [done|]. by apply elem_of_select_group. }
    pose proof (Hin2 _ Hxgb) as H2. simpl in H2. rewrite H2.
    assert (HD1 : D1 !!! id x = compute_D_values vs !!! id x).
    { unfold lookup_total, map_lookup_total.
      by rewrite Hout1 by (apply Hnot; congruence). }
    rewrite HD1, HD. f_equal. lia.
  - rewrite Hout2, Hout1 by (apply Hnot; congruence).
    rewrite Z.mul_0_l, Z.add_0_r. rewrite <- HD.
    destruct (compute_D_values_is_Some vs x) as [d Hd];
      [by eapply list_elem_of_lookup_2|].
    rewrite Hd. f_equal. symmetry. by apply lookup_total_correct.
Qed.

(** The first iteration on [house5] swaps vertices 2 and 3; vertex 5 is
    unlabelled. *)
Lemma D_values_update_is_recomputation_witness :
  let ids := [1; 2; 3; 4; 5] in
  let raw := [(1, 2); (1, 3); (2, 4); (2, 5); (3, 5)] in
  let g := graph_of house5 in
  let st := entry_state house5 in
  NoDup ids ∧ no_reversed raw
  ∧ Graph_init (fresh_vertices ids) raw = Ok g
  ∧ run_state g st
  ∧ outer_iteration true st = Ok (Continue, next_state st)
  ∧ ∃ a b,
      l_vertices (next_state st) = swap_labels a b (l_vertices st)
      ∧ ∀ i x, l_vertices (next_state st) !! i = Some x → i ≠ a → i ≠ b →
          D_values (next_state st) !! id x
          = Some (get_D_value (l_vertices (next_state st)) x).
Proof.
  intros ids raw g st.
  assert (Hnd : NoDup ids).
  { repeat (apply NoDup_cons; split; [set_solver|]). apply NoDup_nil_2. }
  assert (Hrev : no_reversed raw).
  { intros l r Hin Hrev. set_solver. }
  assert (Hg : Graph_init (fresh_vertices ids) raw = Ok g)
    by (vm_compute; reflexivity).
  assert (Hg' : house5 = Ok g) by (vm_compute; reflexivity).
  assert (Hrun : run_state g st) by exact (entry_state_run_state house5 g Hg').
  assert (Hit : outer_iteration true st = Ok (Continue, next_state st))
    by (vm_compute; reflexivity).
  exact (conj Hnd (conj Hrev (conj Hg (conj Hrun (conj Hit
           (D_values_update_is_recomputation ids raw g st (next_state st)
              Hnd Hrev Hg Hrun Hit)))))).
Defined.

(** On [house5] the first iteration swaps vertices 2 and 3.  Afterwards the
    table agrees with recomputation on vertices 1, 4 and 5 (vertex 4 went
    from 1 to -1); the update loops skip the swapped pair, and the entry of
    vertex 3 is still the 2 from before the swap where recomputation gives
    0. *)
Example house5_D_values_after_swap :
  let st1 := next_state (entry_state house5) in
  (fun k => D_values st1 !! k) <$> [1; 2; 3; 4; 5]
  = [Some 0; Some 1; Some 2; Some (-1); Some 2]
  ∧ get_D_value (l_vertices st1) <$> l_vertices st1 = [0; 1; 0; -1; 2].
Proof. split; vm_compute; reflexivity. Qed.

(** * The output file *)

(** ** Strings *)

Lemma str_app_cons c (s1 s2 : string) :
  String c s1 +:+ s2 = String c (s1 +:+ s2).
Proof. reflexivity. Qed.

Lemma str_app_nil (s : string) : "" +:+ s = s.
Proof. reflexivity. Qed.

Lemma str_app_assoc (s1 s2 s3 : string) :
  (s1 +:+ s2) +:+ s3 = s1 +:+ (s2 +:+ s3).
Proof.
  induction s1 as [|c s1 IH]; [done|]. by rewrite !str_app_cons, IH.
Qed.

Lemma str_app_empty_r (s : string) : s +:+ "" = s.
Proof. induction s as [|c s IH]; [done|]. by rewrite str_app_cons, IH. Qed.

(** Two strings of [P]-characters, each followed by a character that is not
    one, are equal when the whole texts are. *)
Lemma app_sep_inj (P : Ascii.ascii → Prop) (x : string) : ∀ y c1 c2 s t,
  all_chars P x → all_chars P y → ¬ P c1 → ¬ P c2 →
  x +:+ String c1 s = y +:+ String c2 t →
  x = y ∧ c1 = c2 ∧ s = t.
Proof.
  induction x as [|a x IH]; intros [|b y] c1 c2 s t Hx Hy Hc1 Hc2;
    rewrite ?str_app_cons, ?str_app_nil.
  - by intros [= -> ->].
  - intros [= -> _]. by destruct Hy.
  - intros [= -> _]. by destruct Hx.
  - intros [= -> Heq]. destruct Hx as [_ Hx], Hy as [_ Hy].
    destruct (IH y c1 c2 s t Hx Hy Hc1 Hc2 Heq) as (-> & -> & ->). done.
Qed.

Lemma str_join_cons sep x (l : list string) :
  str_join sep (x :: l)
  = x +:+ match l with [] => "" | _ :: _ => sep +:+ str_join sep l end.
Proof. destruct l; simpl; [by rewrite str_app_empty_r|done]. Qed.

Lemma not_word_char_space : ¬ word_char space.
Proof. by intros [? _]. Qed.

Lemma not_word_char_newline : ¬ word_char newline.
Proof. by intros [_ ?]. Qed.

(** A line of words joined by spaces and ended by a newline determines the
    words and the rest of the text. *)
Lemma line_inj (l1 : list string) : ∀ l2 r1 r2,
  Forall word l1 → Forall word l2 →
  str_join (String space "") l1 +:+ String newline r1
  = str_join (String space "") l2 +:+ String newline r2 →
  l1 = l2 ∧ r1 = r2.
Proof.
  assert (Hhead : ∀ x l r, word x →
            ∃ c s, str_join (String space "") (x :: l) +:+ String newline r
                   = x +:+ String c s
                   ∧ ¬ word_char c
                   ∧ ((l = [] ∧ c = newline ∧ s = r)
                      ∨ (l ≠ [] ∧ c = space
                         ∧ s = str_join (String space "") l +:+ String newline r))).
  { intros x l r Hx. rewrite str_join_cons, str_app_assoc. destruct l as [|y l].
    - exists newline, r. split; [done|]. split; [apply not_word_char_newline|].
      by left.
    - eexists space, _. split; [done|].
      split; [apply not_word_char_space|]. by right. }
  assert (Hnil : ∀ x l r r', word x →
            String newline r'
            ≠ str_join (String space "") (x :: l) +:+ String newline r).
  { intros x l r r' Hx. destruct (Hhead x l r Hx) as (c & s & -> & _).
    destruct x as [|a x]; [by destruct Hx|]. rewrite str_app_cons.
    intros [= <- _].
    destruct Hx as [_ [Ha _]]. by apply not_word_char_newline. }
  induction l1 as [|x l1 IH]; intros [|y l2] r1 r2 H1 H2.
  - by intros [= ->].
  - apply Forall_cons in H2 as [Hy _]. intros Heq. by apply Hnil in Heq.
  - apply Forall_cons in H1 as [Hx _]. intros Heq. symmetry in Heq.
    by apply Hnil in Heq.
  - apply Forall_cons in H1 as [Hx H1]. apply Forall_cons in H2 as [Hy H2].
    destruct (Hhead x l1 r1 Hx) as (c1 & s1 & -> & Hc1 & Hcase1).
    destruct (Hhead y l2 r2 Hy) as (c2 & s2 & -> & Hc2 & Hcase2).
    intros Heq.
    apply (app_sep_inj word_char) in Heq as (-> & -> & ->);
      [|apply Hx|apply Hy|done..].
    destruct Hcase1 as [(-> & Hc & ->)|(Hl1 & Hc & Hs1)];
      destruct Hcase2 as [(-> & Hc' & Hs2)|(Hl2 & Hc' & Hs2)].
    + by subst.
    + rewrite Hc in Hc'. discriminate Hc'.
    + rewrite Hc in Hc'. discriminate Hc'.
    + rewrite Hs1 in Hs2. destruct (IH l2 r1 r2 H1 H2 Hs2) as [-> ->]. done.
Qed.

(** ** Decimal numerals *)

Lemma pretty_N_char_word_char x : word_char (pretty_N_char x).
Proof. unfold pretty_N_char. repeat case_match; by split. Qed.

Lemma pretty_N_go_word x : ∀ s,
  s ≠ "" → all_chars word_char s →
  pretty_N_go x s ≠ "" ∧ all_chars word_char (pretty_N_go x s).
Proof.
  induction (N.lt_wf_0 x) as [x _ IH]; intros s Hne Hs.
  assert (x = 0 ∨ 0 < x)%N as [->|Hpos] by lia.
  { by rewrite pretty_N_go_0. }
  rewrite pretty_N_go_step by done. apply IH.
  - by apply N.div_lt.
  - done.
  - split; [apply pretty_N_char_word_char|done].
Qed.

Lemma pretty_N_word (x : N) : word (pretty x).
Proof.
  unfold pretty, pretty_N. case_decide as Hx.
  { split; [done|]. simpl. repeat split; done. }
  rewrite pretty_N_go_step by lia. apply pretty_N_go_word.
  - done.
  - split; [apply pretty_N_char_word_char|done].
Qed.

(** [str(n)] for an integer [n] is a non-empty string without spaces and
    newlines. *)
Lemma pretty_Z_word (z : Z) : word (pretty z).
Proof.
  destruct z as [|p|p].
  - split; [done|]. simpl. repeat split; done.
  - apply (pretty_N_word (Npos p)).
  - destruct (pretty_N_word (Npos p)) as [_ Hp].
    split; [done|]. split; [by split|exact Hp].
Qed.

Lemma Forall_word_pretty (l : list Z) : Forall word (pretty <$> l).
Proof. apply Forall_fmap, Forall_forall. intros z _. apply pretty_Z_word. Qed.

(** ** [write_output] *)

(** X21: The file that [write_output] writes determines what was written: two
    calls with cut strings that contain no newline leave the same text only
    when the cut strings and both groups are the same. *)
Theorem write_output_inj (cutset1 cutset2 : string) (a1 b1 a2 b2 : list Z) :
  all_chars (fun c => c ≠ newline) cutset1 →
  all_chars (fun c => c ≠ newline) cutset2 →
  write_output cutset1 a1 b1 = write_output cutset2 a2 b2 →
  cutset1 = cutset2 ∧ a1 = a2 ∧ b1 = b2.
Proof.
  intros Hc1 Hc2. unfold write_output.
  rewrite !str_app_assoc, !str_app_cons, !str_app_nil.
  intros Heq.
  apply (app_sep_inj (fun c => c ≠ newline)) in Heq as (-> & _ & Heq);
    [|done|done|tauto..].
  apply line_inj in Heq as [Ha Heq]; [|apply Forall_word_pretty..].
  apply line_inj in Heq as [Hb _]; [|apply Forall_word_pretty..].
  split; [done|]. split; by eapply (inj (fmap pretty)).
Qed.

(** The cut strings "2" and "2", as [partition] returns them. *)
Lemma write_output_inj_witness :
  all_chars (fun c => c ≠ newline) "2"
  ∧ all_chars (fun c => c ≠ newline) "2"
  ∧ write_output "2" [1; 2] [3; 4] = write_output "2" [1; 2] [3; 4]
  ∧ "2"%string = "2"%string ∧ [1; 2] = [1; 2] ∧ [3; 4] = [3; 4].
Proof.
  assert (H : all_chars (fun c => c ≠ newline) "2").
  { split; [discriminate|exact I]. }
  exact (conj H (conj H (conj eq_refl
           (write_output_inj "2" "2" [1; 2] [3; 4] [1; 2] [3; 4] H H eq_refl)))).
Defined.

(** The cut string of [partition] never contains a newline, so the theorem
    applies to every result it returns. *)
Lemma partition_cutset_no_newline (g : Graph) r :
  partition g = Ok r → all_chars (fun c => c ≠ newline) r.1.1.
Proof.
  unfold partition, partition_with.
  destruct (partition_run true g) as [[g' st]|]; cbn; [|done].
  intros [= <-]. simpl.
  destruct (pretty_Z_word (get_partition_cost g')) as [_ H].
  revert H. generalize (pretty (get_partition_cost g')). intros s.
  induction s as [|c s IH]; simpl; [done|].
  intros [[_ Hc] Hs]. split; [done|by apply IH].
Qed.

Example write_output_cycle4 :
  (g ← cycle4; r ← partition g; Ok (write_output r.1.1 r.1.2 r.2))
  = Ok "2
1 2
3 4
"%string.
Proof. vm_compute. reflexivity. Qed.
